(** * Background job hub of go-datastar-daisyui-template

    Shallow embedding of [internal/jobs/hub.go].  The hub and every job it
    owns are one shared state; goroutines (the dispatch loop [Run], every
    [execute] goroutine, [Stop], readers of [Updates()]) are interleaved
    one atomic action at a time by [hub_step].

    - A [*Job] is a location in a heap [gmap nat Job]; the registry
      [h.jobs] maps identifiers to locations, the admission queue
      [h.submit] holds locations, so that two Submits of the same [*Job]
      really alias one object.
    - A buffered Go channel is its list of buffered values plus a closed
      flag; sends and closes on a closed channel panic, and an unrecovered
      panic stops the whole process ([crashed]).
    - A [JobFunc] is modelled by the sequence of [SetProgress] arguments it
      issues and its return value, which may depend on whether the job's
      context was cancelled when it returns.
    - [CreatedAt] and the logger's output format are not modelled; log
      records keep the level, the message and the job id. *)

From Stdlib Require Import ZArith Ascii String.
From stdpp Require Import base gmap strings list fin_maps.

Module Jobs.

(** ** Data model *)

Definition status_pending : string := "pending"%string.
Definition status_running : string := "running"%string.
Definition status_completed : string := "completed"%string.
Definition status_failed : string := "failed"%string.

(** A Go [error]: [None] is [nil]. *)
Abbreviation error := (option string).

(** [type JobUpdate struct { Progress int; Done bool; Error error }] *)
Record JobUpdate := mkJobUpdate {
  uProgress : Z;
  uDone : bool;
  uError : error
}.

(** [type JobFunc func(j *Job) error]: the [SetProgress] calls the work
    function makes, in program order, and what it returns, given whether
    [j.Context()] is cancelled at that point. *)
Record JobFunc := mkJobFunc {
  wprogress : list Z;
  wresult : bool -> error
}.

(** Program counter of one [execute] goroutine (hub.go, lines 150-178). *)
Inductive ExecPC :=
| EStart                 (* before [job.Status = "running"] *)
| EWork (ps : list Z)    (* inside [job.work(job)], [ps] SetProgress calls left *)
| ESend (err : error)    (* before [job.updates <- JobUpdate{...}] *)
| EClose                 (* before [close(job.updates)] *)
| EExit.                 (* returned *)

(** [type Job struct]; [ctx]/[cancel] become the flag [cancelled]; the
    channel [updates] is its buffer and its closed flag.  [delivered]
    records, in order, the values readers of [Updates()] have received,
    and [execs] the [execute] goroutines launched on this job. *)
Record Job := mkJob {
  ID : string;
  Name : string;
  Status : string;
  Progress : Z;
  Error : error;
  cancelled : bool;
  work : JobFunc;
  updates : list JobUpdate;
  updates_closed : bool;
  delivered : list JobUpdate;
  execs : list ExecPC
}.

Definition set_Status (s : string) (j : Job) : Job :=
  mkJob (ID j) (Name j) s (Progress j) (Error j) (cancelled j) (work j)
        (updates j) (updates_closed j) (delivered j) (execs j).
Definition set_Progress (p : Z) (j : Job) : Job :=
  mkJob (ID j) (Name j) (Status j) p (Error j) (cancelled j) (work j)
        (updates j) (updates_closed j) (delivered j) (execs j).
Definition set_Error (e : error) (j : Job) : Job :=
  mkJob (ID j) (Name j) (Status j) (Progress j) e (cancelled j) (work j)
        (updates j) (updates_closed j) (delivered j) (execs j).
Definition set_cancelled (b : bool) (j : Job) : Job :=
  mkJob (ID j) (Name j) (Status j) (Progress j) (Error j) b (work j)
        (updates j) (updates_closed j) (delivered j) (execs j).
Definition set_updates (us : list JobUpdate) (j : Job) : Job :=
  mkJob (ID j) (Name j) (Status j) (Progress j) (Error j) (cancelled j) (work j)
        us (updates_closed j) (delivered j) (execs j).
Definition set_updates_closed (b : bool) (j : Job) : Job :=
  mkJob (ID j) (Name j) (Status j) (Progress j) (Error j) (cancelled j) (work j)
        (updates j) b (delivered j) (execs j).
Definition set_delivered (us : list JobUpdate) (j : Job) : Job :=
  mkJob (ID j) (Name j) (Status j) (Progress j) (Error j) (cancelled j) (work j)
        (updates j) (updates_closed j) us (execs j).
Definition set_execs (pcs : list ExecPC) (j : Job) : Job :=
  mkJob (ID j) (Name j) (Status j) (Progress j) (Error j) (cancelled j) (work j)
        (updates j) (updates_closed j) (delivered j) pcs.

(** ** Buffered channels *)

(** [make(chan JobUpdate, 100)] and [make(chan *Job, 100)]. *)
Definition updates_cap : nat := 100.
Definition submit_cap : nat := 100.

Inductive send_result (A : Type) :=
| SendOk (buf : list A)
| SendBlocked
| SendPanic.
Arguments SendOk {A} buf.
Arguments SendBlocked {A}.
Arguments SendPanic {A}.

(** [ch <- x]: blocks while the buffer is full, panics when closed. *)
Definition chan_send {A} (cap : nat) (closed : bool) (buf : list A) (x : A)
  : send_result A :=
  if closed then SendPanic
  else if Nat.ltb (length buf) cap then SendOk (buf ++ [x]) else SendBlocked.

Inductive try_result (A : Type) :=
| TrySent (buf : list A)
| TryFull
| TryPanic.
Arguments TrySent {A} buf.
Arguments TryFull {A}.
Arguments TryPanic {A}.

(** [select { case ch <- x: ... default: ... }]: never blocks; the
    [default] branch is taken when the buffer is full; a send on a closed
    channel panics. *)
Definition chan_try_send {A} (cap : nat) (closed : bool) (buf : list A) (x : A)
  : try_result A :=
  if closed then TryPanic
  else if Nat.ltb (length buf) cap then TrySent (buf ++ [x]) else TryFull.

(** A receive [v, ok := <-ch]. *)
Inductive recv_result (A : Type) :=
| RecvValue (v : A) (rest : list A)
| RecvClosed          (* zero value, ok = false: a [range] loop ends *)
| RecvBlocked.
Arguments RecvValue {A} v rest.
Arguments RecvClosed {A}.
Arguments RecvBlocked {A}.

Definition chan_recv {A} (closed : bool) (buf : list A) : recv_result A :=
  match buf with
  | v :: rest => RecvValue v rest
  | [] => if closed then RecvClosed else RecvBlocked
  end.

(** ** Logging *)

Inductive Level := LInfo | LWarn | LError.

Record LogEntry := mkLog { lvl : Level; msg : string; log_job_id : string }.

(** ** Job operations *)

(** [newJob(name, work)], with the identifier [util.GenerateID()] drew. *)
Definition newJob (id name : string) (w : JobFunc) : Job :=
  mkJob id name status_pending 0%Z None false w [] false [] [].

(** [j.SetProgress(p)]; [None] is the panic of a send on a closed channel. *)
Definition SetProgress (j : Job) (p : Z) : option Job :=
  let j1 := set_Progress p j in
  match chan_try_send updates_cap (updates_closed j1) (updates j1)
          (mkJobUpdate p false None) with
  | TrySent us => Some (set_updates us j1)
  | TryFull => Some j1                      (* Channel full, skip update *)
  | TryPanic => None
  end.

(** [j.Cancel()]: [context.CancelFunc] is idempotent. *)
Definition Cancel (j : Job) : Job := set_cancelled true j.

(** ** One step of [h.execute(job)] *)

Inductive exec_result :=
| ENext (j : Job) (pc : ExecPC) (lg : list LogEntry)
| EBlocked
| EPanic.

Definition exec_step (j : Job) (pc : ExecPC) : exec_result :=
  match pc with
  | EStart =>
      ENext (set_Status status_running j) (EWork (wprogress (work j)))
            [mkLog LInfo "job started"%string (ID j)]
  | EWork (p :: ps) =>
      match SetProgress j p with
      | Some j' => ENext j' (EWork ps) []
      | None => EPanic
      end
  | EWork [] =>
      let err := wresult (work j) (cancelled j) in
      match err with
      | Some e =>
          ENext (set_Error err (set_Status status_failed j)) (ESend err)
                [mkLog LError "job failed"%string (ID j)]
      | None =>
          ENext (set_Progress 100%Z (set_Status status_completed j)) (ESend err)
                [mkLog LInfo "job completed"%string (ID j)]
      end
  | ESend err =>
      match chan_send updates_cap (updates_closed j) (updates j)
              (mkJobUpdate (Progress j) true err) with
      | SendOk us => ENext (set_updates us j) EClose []
      | SendBlocked => EBlocked
      | SendPanic => EPanic
      end
  | EClose =>
      if updates_closed j then EPanic                (* close of closed channel *)
      else ENext (set_updates_closed true j) EExit []
  | EExit => EBlocked
  end.

(** ** The hub *)

(** [type Hub struct]: the registry [jobs], the admission queue [submit],
    the [done] channel (only its closed flag matters), plus whether the
    [Run] loop is still running, the log, and whether a panic stopped the
    process.  The heap holds every [*Job] built by [NewJob]. *)
Record Hub := mkHub {
  heap : gmap nat Job;
  jobs : gmap string nat;
  submit : list nat;
  done_closed : bool;
  run_active : bool;
  logs : list LogEntry;
  crashed : bool
}.

Definition set_heap (hp : gmap nat Job) (h : Hub) : Hub :=
  mkHub hp (jobs h) (submit h) (done_closed h) (run_active h) (logs h) (crashed h).
Definition set_jobs (js : gmap string nat) (h : Hub) : Hub :=
  mkHub (heap h) js (submit h) (done_closed h) (run_active h) (logs h) (crashed h).
Definition set_submit (q : list nat) (h : Hub) : Hub :=
  mkHub (heap h) (jobs h) q (done_closed h) (run_active h) (logs h) (crashed h).
Definition set_done_closed (b : bool) (h : Hub) : Hub :=
  mkHub (heap h) (jobs h) (submit h) b (run_active h) (logs h) (crashed h).
Definition set_run_active (b : bool) (h : Hub) : Hub :=
  mkHub (heap h) (jobs h) (submit h) (done_closed h) b (logs h) (crashed h).
Definition add_logs (lg : list LogEntry) (h : Hub) : Hub :=
  mkHub (heap h) (jobs h) (submit h) (done_closed h) (run_active h) (logs h ++ lg)
        (crashed h).
Definition set_crashed (h : Hub) : Hub :=
  mkHub (heap h) (jobs h) (submit h) (done_closed h) (run_active h) (logs h) true.

(** [NewHub(logger)] followed by [go jobHub.Run()] (cmd/server/main.go). *)
Definition hub_init : Hub := mkHub ∅ ∅ [] false true [] false.

(** [h.Submit(job)]: register under the write lock, then a non-blocking
    enqueue; a full queue only logs a warning. *)
Definition Submit (h : Hub) (l : nat) : option Hub :=
  match heap h !! l with
  | None => None
  | Some j =>
      let h1 := set_jobs (<[ID j := l]> (jobs h)) h in
      match chan_try_send submit_cap false (submit h1) l with
      | TrySent q => Some (set_submit q h1)
      | TryFull => Some (add_logs [mkLog LWarn "job queue full"%string (ID j)] h1)
      | TryPanic => None
      end
  end.

(** [h.Get(id)]: the registered pointer, [None] for [ok = false]. *)
Definition Get (h : Hub) (id : string) : option nat := jobs h !! id.

(** The dereferenced job [Get] returns. *)
Definition get_job (h : Hub) (id : string) : option Job :=
  l ← Get h id; heap h !! l.

(** The [for _, job := range h.jobs { job.Cancel() }] loop of [Stop]. *)
Definition cancel_all (js : gmap string nat) (hp : gmap nat Job) : gmap nat Job :=
  foldr (fun kv acc => alter Cancel kv.2 acc) hp (map_to_list js).

(** [h.Stop()]: [close(h.done)] panics when [done] is already closed. *)
Definition Stop (h : Hub) : Hub :=
  if done_closed h then set_crashed h
  else set_heap (cancel_all (jobs h) (heap h)) (set_done_closed true h).

(** Atomic actions of the interleaved goroutines. *)
Inductive Action :=
| ANewJob (l : nat) (id name : string) (w : JobFunc)  (* h.NewJob *)
| ASubmit (l : nat)                                   (* h.Submit(job) *)
| ARunRecv                  (* Run: case job := <-h.submit: go h.execute(job) *)
| ARunDone                  (* Run: case <-h.done: return *)
| AStop                     (* h.Stop() *)
| AExec (l : nat) (i : nat) (* a step of the i-th execute goroutine of job l *)
| ARecv (l : nat)           (* a reader: <-job.Updates() *)
| ACancel (l : nat).        (* job.Cancel() *)

(** One action; [None] when it cannot be taken (it blocks, or its goroutine
    does not exist). *)
Definition hub_step (h : Hub) (a : Action) : option Hub :=
  if crashed h then None else
  match a with
  | ANewJob l id name w =>
      match heap h !! l with
      | Some _ => None
      | None => Some (set_heap (<[l := newJob id name w]> (heap h)) h)
      end
  | ASubmit l => Submit h l
  | ARunRecv =>
      if run_active h then
        match submit h with
        | l :: q =>
            match heap h !! l with
            | Some j =>
                Some (set_heap (<[l := set_execs (execs j ++ [EStart]) j]> (heap h))
                               (set_submit q h))
            | None => None
            end
        | [] => None
        end
      else None
  | ARunDone =>
      if run_active h && done_closed h then Some (set_run_active false h) else None
  | AStop => Some (Stop h)
  | AExec l i =>
      match heap h !! l with
      | Some j =>
          match execs j !! i with
          | Some pc =>
              match exec_step j pc with
              | ENext j' pc' lg =>
                  Some (add_logs lg
                          (set_heap (<[l := set_execs (<[i := pc']> (execs j')) j']>
                                        (heap h)) h))
              | EBlocked => None
              | EPanic => Some (set_crashed h)
              end
          | None => None
          end
      | None => None
      end
  | ARecv l =>
      match heap h !! l with
      | Some j =>
          match chan_recv (updates_closed j) (updates j) with
          | RecvValue u rest =>
              Some (set_heap (<[l := set_delivered (delivered j ++ [u])
                                        (set_updates rest j)]> (heap h)) h)
          | RecvClosed => Some h
          | RecvBlocked => None
          end
      | None => None
      end
  | ACancel l =>
      match heap h !! l with
      | Some j => Some (set_heap (<[l := Cancel j]> (heap h)) h)
      | None => None
      end
  end.

Fixpoint run (h : Hub) (acts : list Action) : option Hub :=
  match acts with
  | [] => Some h
  | a :: acts' => match hub_step h a with Some h' => run h' acts' | None => None end
  end.

Inductive reachable : Hub -> Prop :=
| reach_init : reachable hub_init
| reach_step h a h' : reachable h -> hub_step h a = Some h' -> reachable h'.

(** ** How one action affects one job

    Every action changes the object at a location [l] in one of the ways
    listed by [jtrans], or allocates it with [newJob]. *)
Inductive jtrans : Job -> Job -> Prop :=
| jt_refl j : jtrans j j
| jt_cancel j : jtrans j (Cancel j)
| jt_dispatch j : jtrans j (set_execs (execs j ++ [EStart]) j)
| jt_exec j i pc j' pc' lg :
    execs j !! i = Some pc -> exec_step j pc = ENext j' pc' lg ->
    jtrans j (set_execs (<[i := pc']> (execs j')) j')
| jt_recv j u rest :
    updates j = u :: rest ->
    jtrans j (set_delivered (delivered j ++ [u]) (set_updates rest j)).

(** ** Derived notions and concrete runs *)

(** Number of terminal updates ([Done = true]) in a sequence. *)
Fixpoint count_done (us : list JobUpdate) : nat :=
  match us with
  | [] => 0
  | u :: us' => (if uDone u then 1 else 0) + count_done us'
  end.

Definition ends_done (us : list JobUpdate) : Prop :=
  exists us' u, us = us' ++ [u] /\ uDone u = true.

(** Everything ever put on [job.updates]: what readers received, then what
    is still buffered. *)
Definition stream (j : Job) : list JobUpdate := delivered j ++ updates j.

Definition last_or (d : Z) (ps : list Z) : Z := default d (last ps).

Definition terminal_ok (j : Job) (err : error) : Prop :=
  match err with
  | None => Status j = status_completed /\ Progress j = 100%Z /\ Error j = None
  | Some e => Status j = status_failed /\ Error j = Some e
  end.

(** What holds of a job while its only [execute] goroutine is at [pc]
    ([EStart] also describes a job not yet dispatched). *)
Definition pc_inv (j : Job) (pc : ExecPC) : Prop :=
  match pc with
  | EStart =>
      Status j = status_pending /\ Error j = None /\ Progress j = 0%Z /\
      count_done (stream j) = 0 /\ updates_closed j = false
  | EWork ps =>
      Status j = status_running /\ Error j = None /\
      (exists pre, wprogress (work j) = pre ++ ps /\ Progress j = last_or 0 pre) /\
      count_done (stream j) = 0 /\ updates_closed j = false
  | ESend err =>
      terminal_ok j err /\ count_done (stream j) = 0 /\ updates_closed j = false
  | EClose =>
      (exists err, terminal_ok j err) /\ count_done (stream j) = 1 /\
      ends_done (stream j) /\ updates_closed j = false
  | EExit =>
      (exists err, terminal_ok j err) /\ count_done (stream j) = 1 /\
      ends_done (stream j) /\ updates_closed j = true
  end.

Definition once_inv (j : Job) : Prop :=
  match execs j with
  | [] => pc_inv j EStart
  | [pc] => pc_inv j pc
  | _ => True
  end.

(** Scenario A of the spec: a job named "demo-task" reports 0, 10, ..., 100
    and succeeds; it is submitted, dispatched, run to the end, and a reader
    drains its stream (the last receive sees the closed channel). *)
Definition demo_work : JobFunc :=
  mkJobFunc [0; 10; 20; 30; 40; 50; 60; 70; 80; 90; 100]%Z (fun _ => None).

Definition demo_id : string := "0123456789abcdef0123456789abcdef"%string.

Definition acts_A : list Action :=
  [ANewJob 0 demo_id "demo-task"%string demo_work; ASubmit 0; ARunRecv] ++
  repeat (AExec 0 0) 15 ++ repeat (ARecv 0) 13.

Definition hub_of (o : option Hub) : Hub :=
  match o with Some h => h | None => hub_init end.

Definition job_of (h : Hub) (l : nat) : Job :=
  match heap h !! l with Some j => j | None => newJob "" "" demo_work end.

Definition hub_A : Hub := hub_of (run hub_init acts_A).

Definition job_A : Job := job_of hub_A 0.

(** A job whose work function reports progress 100 times while nobody
    reads its stream: the buffer of [job.updates] is full when [execute]
    reaches its terminal send. *)
Definition flood_work : JobFunc := mkJobFunc (repeat 1%Z 100) (fun _ => None).

Definition acts_full : list Action :=
  [ANewJob 0 demo_id "flood"%string flood_work; ASubmit 0; ARunRecv] ++
  repeat (AExec 0 0) 102.

Definition hub_full : Hub := hub_of (run hub_init acts_full).

Definition job_full : Job := job_of hub_full 0.

Definition idle_at (h : Hub) (id : string) (l : nat) : Prop :=
  Get h id = Some l /\
  exists j, heap h !! l = Some j /\ ID j = id /\ Status j = status_pending /\
    execs j = [] /\ l ∉ submit h.

(** A hub whose admission queue holds 100 jobs (the dispatch loop has not
    received any of them yet), plus job 100 created but not submitted. *)
Definition acts_Q : list Action :=
  flat_map (fun n => [ANewJob n "queued-id"%string "queued"%string demo_work; ASubmit n])
           (seq 0 100) ++
  [ANewJob 100 demo_id "late"%string demo_work].

Definition hub_Q : Hub := hub_of (run hub_init acts_Q).

Definition job_Q : Job := job_of hub_Q 100.

(** A sequence of [SetProgress] calls made one after the other. *)
Fixpoint set_progress_all (j : Job) (ps : list Z) : option Job :=
  match ps with
  | [] => Some j
  | p :: ps' =>
      match SetProgress j p with
      | Some j' => set_progress_all j' ps'
      | None => None
      end
  end.

Definition status_step (s s' : string) : Prop :=
  s' = s \/ (s = status_pending /\ s' = status_running) \/
  (s = status_running /\ (s' = status_completed \/ s' = status_failed)).

(** Two submissions of one job with room in the queue: the first
    [execute] runs to the end (status "completed", stream closed), then
    the second one starts. *)
Definition noop_work : JobFunc := mkJobFunc [] (fun _ => None).

Definition acts_dup : list Action :=
  [ANewJob 0 demo_id "dup"%string noop_work; ASubmit 0; ASubmit 0; ARunRecv; ARunRecv;
   AExec 0 0; AExec 0 0; AExec 0 0; AExec 0 0].

Definition hub_dup : Hub := hub_of (run hub_init acts_dup).

Definition job_dup : Job := job_of hub_dup 0.

Definition hub_dup' : Hub := hub_of (hub_step hub_dup (AExec 0 1)).

Definition job_dup' : Job := job_of hub_dup' 0.

(** A work function that reports 50 and returns nil, submitted twice: the
    first [execute] completes the job (progress 100), then the second one
    reports 50 again. *)
Definition w50 : JobFunc := mkJobFunc [50%Z] (fun _ => None).

Definition acts_c2 : list Action :=
  [ANewJob 0 demo_id "half"%string w50; ASubmit 0; ASubmit 0; ARunRecv; ARunRecv;
   AExec 0 0; AExec 0 1; AExec 0 0; AExec 0 0; AExec 0 1].

Definition hub_c2 : Hub := hub_of (run hub_init acts_c2).

Definition job_c2 : Job := job_of hub_c2 0.

(** The demo job admitted and dispatched, before its [execute] runs, and
    the hub after the first step of that [execute]. *)
Definition acts_start : list Action :=
  [ANewJob 0 demo_id "demo-task"%string demo_work; ASubmit 0; ARunRecv].

Definition hub_start : Hub := hub_of (run hub_init acts_start).

Definition hub_started : Hub := hub_of (hub_step hub_start (AExec 0 0)).

Definition job_started : Job := job_of hub_started 0.

Definition in_range (p : Z) : Prop := (0 <= p <= 100)%Z.

Definition range_inv (j : Job) : Prop :=
  Forall in_range (wprogress (work j)) ->
  in_range (Progress j) /\
  (forall i ps, execs j !! i = Some (EWork ps) -> Forall in_range ps).

(** A work function that reports 150. *)
Definition over_work : JobFunc := mkJobFunc [150%Z] (fun _ => None).

Definition acts_over : list Action :=
  [ANewJob 0 demo_id "over"%string over_work; ASubmit 0; ARunRecv; AExec 0 0; AExec 0 0].

Definition hub_over : Hub := hub_of (run hub_init acts_over).

Definition job_over : Job := job_of hub_over 0.

Definition is_exit (pc : ExecPC) : nat := match pc with EExit => 1 | _ => 0 end.

Fixpoint count_exit (pcs : list ExecPC) : nat :=
  match pcs with
  | [] => 0
  | pc :: pcs' => is_exit pc + count_exit pcs'
  end.

(** The stream is closed exactly when one [execute] goroutine has
    returned, and at most one ever returns. *)
Definition exit_inv (j : Job) : Prop :=
  count_exit (execs j) = if updates_closed j then 1 else 0.

(** Both [execute] goroutines of a twice-submitted job finish pushing
    their terminal updates before either closes the stream; the first
    close succeeds, the second would close a closed channel. *)
Definition acts_two : list Action :=
  [ANewJob 0 demo_id "dup"%string noop_work; ASubmit 0; ASubmit 0; ARunRecv; ARunRecv;
   AExec 0 0; AExec 0 0; AExec 0 1; AExec 0 1; AExec 0 0; AExec 0 1; AExec 0 0].

Definition hub_two : Hub := hub_of (run hub_init acts_two).

Definition job_two : Job := job_of hub_two 0.

(** The second [execute] of a twice-submitted job starts only after the
    first one closed the stream, and reaches its terminal send. *)
Definition acts_seq : list Action := acts_dup ++ [AExec 0 1; AExec 0 1].

Definition hub_seq : Hub := hub_of (run hub_init acts_seq).

Definition job_seq : Job := job_of hub_seq 0.

(** ** util.GenerateID (internal/util/id.go) *)

(** The digit table of Go's [encoding/hex]. *)
Definition hextable : string := "0123456789abcdef"%string.

Definition hex_char (n : N) : Ascii.ascii :=
  match String.get (N.to_nat n) hextable with Some c => c | None => "0"%char end.

(** [hex.EncodeToString(src)]: byte [v] becomes [hextable[v>>4]] followed
    by [hextable[v&0x0f]]. *)
Fixpoint EncodeToString (src : list Byte.byte) : string :=
  match src with
  | [] => EmptyString
  | b :: bs =>
      let v := Byte.to_N b in
      String (hex_char (N.shiftr v 4)) (String (hex_char (N.land v 15)) (EncodeToString bs))
  end.

(** [GenerateID()]: [b] is the 16-byte slice after [rand.Read(b)] (whose
    error is ignored, so [b] may be any 16 bytes). *)
Definition GenerateID (b : list Byte.byte) : string := EncodeToString b.

(** Position of a digit in [hextable]; used to read an encoding back. *)
Fixpoint index_of (c : Ascii.ascii) (s : string) : option N :=
  match s with
  | EmptyString => None
  | String c' s' => if Ascii.eqb c c' then Some 0%N else N.succ <$> index_of c s'
  end.

Definition decode_pair (hi lo : Ascii.ascii) : option Byte.byte :=
  match index_of hi hextable, index_of lo hextable with
  | Some x, Some y => Byte.of_N (x * 16 + y)
  | _, _ => None
  end.

Fixpoint decode_hex (cs : list Ascii.ascii) : option (list Byte.byte) :=
  match cs with
  | [] => Some []
  | hi :: lo :: cs' =>
      match decode_pair hi lo, decode_hex cs' with
      | Some b, Some bs => Some (b :: bs)
      | _, _ => None
      end
  | [_] => None
  end.

(** ** internal/handlers/handlers.go *)

(** The templ components of internal/views the handlers render;
    [renderComponent] turns each into its HTML. *)
Inductive Component :=
| CounterValue (count : Z)
| JobProgress (progress : Z)
| JobInfo (jobID alertClass message : string).

(** What a handler writes through [datastar.NewSSE]. *)
Inductive SseEvent :=
| PatchElements (c : Component)
| PatchSignals (signals : string).

Inductive Response :=
| HttpError (code : nat) (body : string)   (* http.Error(w, body, code) *)
| SseStream (events : list SseEvent).

(** [type Handlers struct]: the [counter atomic.Int64] (the logger and the
    hub are passed where used). *)
Record Handlers := mkHandlers { counter : Z }.

(** [handlers.New(logger, jobHub)]: the counter starts at its zero value. *)
Definition New : Handlers := mkHandlers 0%Z.

(** Two's-complement wrap-around of an [int64]. *)
Definition int64_wrap (z : Z) : Z := ((z + 2 ^ 63) mod 2 ^ 64 - 2 ^ 63)%Z.

(** [h.Counter]: patch the current value [h.counter.Load()]. *)
Definition Counter (hs : Handlers) : list SseEvent :=
  [PatchElements (CounterValue (counter hs))].

(** [h.Increment]: [count := h.counter.Add(1)], then patch [count]. *)
Definition Increment (hs : Handlers) : Handlers * list SseEvent :=
  let count := int64_wrap (counter hs + 1) in
  (mkHandlers count, [PatchElements (CounterValue count)]).

(** [n] [Increment] requests served one after the other ([Add] is atomic,
    so concurrent requests are served in some such order), with the events
    they sent. *)
Fixpoint increments (hs : Handlers) (n : nat) : Handlers * list SseEvent :=
  match n with
  | O => (hs, [])
  | S n' =>
      let '(hs1, ev) := Increment hs in
      let '(hs2, evs) := increments hs1 n' in (hs2, ev ++ evs)
  end.

Definition dq : string := String (Ascii.ascii_of_nat 34) EmptyString.

(** [`{"jobStatus": "` + status + `"}`]. *)
Definition status_signals (status : string) : string :=
  ("{" ++ dq ++ "jobStatus" ++ dq ++ ": " ++ dq ++ status ++ dq ++ "}")%string.

(** The [if update.Done] block of [JobStatus]; [update.Error.Error()] is the
    message the [error] carries. *)
Definition done_events (jobID : string) (err : error) : list SseEvent :=
  let '(status, alertClass, message) :=
    match err with
    | None => ("completed"%string, "alert-success"%string, "Job completed"%string)
    | Some e => ("failed"%string, "alert-error"%string, ("Job failed: " ++ e)%string)
    end in
  [PatchElements (JobInfo jobID alertClass message); PatchSignals (status_signals status)].

(** [for update := range job.Updates() { ... }] over the values received,
    leaving the loop with [break] after the first [Done] update. *)
Fixpoint stream_job (jobID : string) (us : list JobUpdate) : list SseEvent :=
  match us with
  | [] => []
  | u :: us' =>
      PatchElements (JobProgress (uProgress u)) ::
      (if uDone u then done_events jobID (uError u) else stream_job jobID us')
  end.

(** [h.JobStatus] for the path value [jobID]; [received l] is what the
    [range] loop receives from the channel of the job [Get] returned. *)
Definition JobStatus (h : Hub) (jobID : string) (received : nat -> list JobUpdate) : Response :=
  if String.eqb jobID "" then HttpError 400 "job id required"
  else match Get h jobID with
       | None => HttpError 404 "job not found"
       | Some l => SseStream (stream_job jobID (received l))
       end.

(** A reader that is the only consumer of a job's channel receives all
    of it. *)
Definition whole_stream (h : Hub) (l : nat) : list JobUpdate :=
  match heap h !! l with Some j => stream j | None => [] end.

(** ** The work function of [StartJob] *)

(** [j.Context().Err()] and [r.Context().Err()]: neither context has a
    deadline, so a done one reports [context.Canceled]. *)
Definition ctx_canceled : error := Some "context canceled"%string.

(** [for i := 0; i <= 100; i += 10 { ... }]; [jctx t] ([rctx t]) tells
    whether the job's (the request's) context is done at the [t]-th
    [select] the loop runs.  The fuel only bounds the iterations the loop
    condition already bounds. *)
Fixpoint demo_task_loop (fuel : nat) (i : Z) (t : nat) (jctx rctx : nat -> bool)
    : list Z * error :=
  match fuel with
  | O => ([], None)
  | S fuel' =>
      if (i <=? 100)%Z then
        if jctx t then ([], ctx_canceled)
        else (* j.SetProgress(i) *)
          if jctx (S t) || rctx (S t) then ([i], ctx_canceled)
          else let '(ps, r) := demo_task_loop fuel' (i + 10)%Z (S (S t)) jctx rctx in
               (i :: ps, r)
      else ([], None)
  end.

(** The values the work passes to [SetProgress] and the error it returns. *)
Definition demo_task (jctx rctx : nat -> bool) : list Z * error :=
  demo_task_loop 12 0%Z 0 jctx rctx.

(** The context checks that all pass: the [t]-th [select] finds no case
    ready. *)
Definition checks_pass (jctx rctx : nat -> bool) (t : nat) : Prop :=
  jctx t = false /\ (Nat.odd t = true -> rctx t = false).

(** ** The final update of a finished job *)

(** Once its only [execute] goroutine has pushed the terminal update, the
    stream ends with [JobUpdate{job.Progress, true, err}], preceded by no
    other terminal update, and [err] is what [execute] recorded. *)
Definition fin_pc (j : Job) (pc : ExecPC) : Prop :=
  match pc with
  | EClose | EExit =>
      exists pre err, stream j = pre ++ [mkJobUpdate (Progress j) true err] /\
        count_done pre = 0 /\ terminal_ok j err
  | _ => True
  end.

Definition fin_inv (j : Job) : Prop :=
  match execs j with [pc] => fin_pc j pc | _ => True end.

(** Every registered identifier names a job carrying it. *)
Definition registry_ok (h : Hub) : Prop :=
  forall id l, jobs h !! id = Some l -> exists j, heap h !! l = Some j /\ ID j = id.

(** How many [execute] goroutines the job at [l] has had. *)
Definition execs_count (hp : gmap nat Job) (l : nat) : nat :=
  match hp !! l with Some j => length (execs j) | None => 0 end.

(** Scenario A, then [Stop] and the return of [Run]. *)
Definition hub_stopped : Hub := hub_of (run hub_A [AStop; ARunDone]).

(** ** Proofs *)

Lemma cancel_idem j : Cancel (Cancel j) = Cancel j.
Proof. destruct j; reflexivity. Qed.

Lemma cancel_list_lookup (ls : list (string * nat)) (hp : gmap nat Job) l :
  foldr (fun kv acc => alter Cancel kv.2 acc) hp ls !! l =
  if decide (l ∈ ls.*2) then Cancel <$> hp !! l else hp !! l.
Proof.
  induction ls as [|[k l'] ls IH]; [done|].
  cbn [foldr]. rewrite fmap_cons. cbn [snd].
  destruct (decide (l = l')) as [->|Hne].
  - rewrite lookup_alter_eq, IH, (decide_True _ _ (list_elem_of_here _ _)).
    case_decide; destruct (hp !! l'); simpl; rewrite ?cancel_idem; done.
  - rewrite lookup_alter_ne by done. rewrite IH.
    assert (l ∈ l' :: ls.*2 <-> l ∈ ls.*2) as Hiff
      by (rewrite elem_of_cons; naive_solver).
    by repeat case_decide; try tauto.
Qed.

Lemma cancel_all_lookup js hp l :
  cancel_all js hp !! l =
  if decide (l ∈ (map_to_list js).*2) then Cancel <$> hp !! l else hp !! l.
Proof. apply cancel_list_lookup. Qed.

Lemma cancel_all_lookup_Some js hp l j :
  cancel_all js hp !! l = Some j ->
  exists j0, hp !! l = Some j0 /\ (j = j0 \/ j = Cancel j0).
Proof.
  rewrite cancel_all_lookup. case_decide.
  - destruct (hp !! l) eqn:E; simpl; intros; simplify_eq; eauto.
  - eauto.
Qed.

Lemma Submit_fields h l h' :
  Submit h l = Some h' ->
  exists j, heap h !! l = Some j /\ heap h' = heap h /\
    jobs h' = <[ID j := l]> (jobs h) /\ crashed h' = crashed h /\
    done_closed h' = done_closed h /\ run_active h' = run_active h /\
    ((length (submit h) < submit_cap /\ submit h' = submit h ++ [l] /\
      logs h' = logs h) \/
     (submit_cap <= length (submit h) /\ submit h' = submit h /\
      logs h' = logs h ++ [mkLog LWarn "job queue full"%string (ID j)])).
Proof.
  unfold Submit, chan_try_send. destruct (heap h !! l) as [j|] eqn:E; [|done].
  simpl. destruct (Nat.ltb_spec (length (submit h)) submit_cap);
    intros; simplify_eq; exists j; simpl; repeat split; auto.
Qed.

Lemma step_heap h a h' l j' :
  hub_step h a = Some h' -> heap h' !! l = Some j' ->
  (heap h !! l = None /\ exists id name w, j' = newJob id name w) \/
  (exists j, heap h !! l = Some j /\ jtrans j j').
Proof.
  unfold hub_step. destruct (crashed h); [done|].
  destruct a as [l0 id name w|l0| | | |l0 i|l0|l0]; intros Hs Hl.
  - destruct (heap h !! l0) eqn:E; simplify_eq; simpl in Hl.
    destruct (decide (l0 = l)) as [->|Hne].
    + rewrite lookup_insert_eq in Hl. simplify_eq. left. eauto.
    + rewrite lookup_insert_ne in Hl by done. right. eauto using jt_refl.
  - apply Submit_fields in Hs as (j & _ & Eh & _). rewrite Eh in Hl.
    right. eauto using jt_refl.
  - destruct (run_active h); [|done].
    destruct (submit h) as [|l0 q]; [done|].
    destruct (heap h !! l0) as [j0|] eqn:E; simplify_eq; simpl in Hl.
    destruct (decide (l0 = l)) as [->|Hne].
    + rewrite lookup_insert_eq in Hl. simplify_eq. right. eauto using jt_dispatch.
    + rewrite lookup_insert_ne in Hl by done. right. eauto using jt_refl.
  - destruct (run_active h && done_closed h); simplify_eq. right. eauto using jt_refl.
  - simplify_eq. unfold Stop in Hl. destruct (done_closed h); simpl in Hl.
    + right. eauto using jt_refl.
    + apply cancel_all_lookup_Some in Hl as (j0 & ? & [->| ->]);
        right; eauto using jt_refl, jt_cancel.
  - destruct (heap h !! l0) as [j0|] eqn:E; [|done].
    destruct (execs j0 !! i) as [pc|] eqn:Epc; [|done].
    destruct (exec_step j0 pc) as [j1 pc' lg| |] eqn:Ex; simplify_eq; simpl in Hl.
    + destruct (decide (l0 = l)) as [->|Hne].
      * rewrite lookup_insert_eq in Hl. simplify_eq. right. eauto using jt_exec.
      * rewrite lookup_insert_ne in Hl by done. right. eauto using jt_refl.
    + right. eauto using jt_refl.
  - destruct (heap h !! l0) as [j0|] eqn:E; [|done].
    destruct (updates j0) as [|u rest] eqn:Eu; simpl in Hs.
    + destruct (updates_closed j0); simplify_eq. right. eauto using jt_refl.
    + simplify_eq; simpl in Hl. destruct (decide (l0 = l)) as [->|Hne].
      * rewrite lookup_insert_eq in Hl. simplify_eq. right. eauto using jt_recv.
      * rewrite lookup_insert_ne in Hl by done. right. eauto using jt_refl.
  - destruct (heap h !! l0) as [j0|] eqn:E; simplify_eq; simpl in Hl.
    destruct (decide (l0 = l)) as [->|Hne].
    + rewrite lookup_insert_eq in Hl. simplify_eq. right. eauto using jt_cancel.
    + rewrite lookup_insert_ne in Hl by done. right. eauto using jt_refl.
Qed.

Lemma step_heap_persist h a h' l j :
  hub_step h a = Some h' -> heap h !! l = Some j ->
  exists j', heap h' !! l = Some j' /\ jtrans j j'.
Proof.
  unfold hub_step. destruct (crashed h); [done|].
  destruct a as [l0 id name w|l0| | | |l0 i|l0|l0]; intros Hs Hl.
  - destruct (heap h !! l0) eqn:E; simplify_eq; simpl.
    rewrite lookup_insert_ne by congruence. eauto using jt_refl.
  - apply Submit_fields in Hs as (j0 & _ & -> & _). eauto using jt_refl.
  - destruct (run_active h); [|done].
    destruct (submit h) as [|l0 q]; [done|].
    destruct (heap h !! l0) as [j0|] eqn:E; simplify_eq; simpl.
    destruct (decide (l0 = l)) as [->|Hne].
    + rewrite lookup_insert_eq. simplify_eq. eauto using jt_dispatch.
    + rewrite lookup_insert_ne by done. eauto using jt_refl.
  - destruct (run_active h && done_closed h); simplify_eq. eauto using jt_refl.
  - simplify_eq. unfold Stop. destruct (done_closed h); simpl; [eauto using jt_refl|].
    rewrite cancel_all_lookup, Hl. case_decide; simpl; eauto using jt_refl, jt_cancel.
  - destruct (heap h !! l0) as [j0|] eqn:E; [|done].
    destruct (execs j0 !! i) as [pc|] eqn:Epc; [|done].
    destruct (exec_step j0 pc) as [j1 pc' lg| |] eqn:Ex; simplify_eq; simpl;
      [|eauto using jt_refl].
    destruct (decide (l0 = l)) as [->|Hne].
    + rewrite lookup_insert_eq. simplify_eq. eauto using jt_exec.
    + rewrite lookup_insert_ne by done. eauto using jt_refl.
  - destruct (heap h !! l0) as [j0|] eqn:E; [|done].
    destruct (updates j0) as [|u rest] eqn:Eu; simpl in Hs.
    + destruct (updates_closed j0); simplify_eq. eauto using jt_refl.
    + simplify_eq; simpl. destruct (decide (l0 = l)) as [->|Hne].
      * rewrite lookup_insert_eq. simplify_eq. eauto using jt_recv.
      * rewrite lookup_insert_ne by done. eauto using jt_refl.
  - destruct (heap h !! l0) as [j0|] eqn:E; simplify_eq; simpl.
    destruct (decide (l0 = l)) as [->|Hne].
    + rewrite lookup_insert_eq. simplify_eq. eauto using jt_cancel.
    + rewrite lookup_insert_ne by done. eauto using jt_refl.
Qed.

(** A property of single jobs that holds for fresh jobs and is kept by
    every [jtrans] holds for every job of every reachable hub. *)
Lemma reachable_job_inv (P : Job -> Prop) :
  (forall id name w, P (newJob id name w)) ->
  (forall j j', jtrans j j' -> P j -> P j') ->
  forall h, reachable h -> forall l j, heap h !! l = Some j -> P j.
Proof.
  intros Hnew Htr h Hr. induction Hr as [|h a h' Hr IH Hs]; intros l j Hl.
  - simpl in Hl. by rewrite lookup_empty in Hl.
  - destruct (step_heap h a h' l j Hs Hl) as [(_ & id & name & w & ->)|(j0 & H0 & Ht)];
      eauto.
Qed.

(** ** The update stream of a job *)

Lemma count_done_app xs ys : count_done (xs ++ ys) = count_done xs + count_done ys.
Proof. induction xs as [|u xs IH]; simpl; lia. Qed.

Lemma ends_done_app_l xs ys :
  ends_done (xs ++ ys) -> count_done (xs ++ ys) = 1 -> count_done xs = 1 ->
  ys = [] /\ ends_done xs.
Proof.
  intros (zs & u & E & Hu) Hc Hx. rewrite count_done_app in Hc.
  destruct ys as [|y ys] using rev_ind.
  - rewrite app_nil_r in E. split; [done|]. exists zs, u. done.
  - rewrite app_assoc in E. apply app_inj_tail in E as [_ ->].
    rewrite count_done_app in Hc. simpl in Hc. rewrite Hu in Hc. lia.
Qed.

Lemma exec_step_fields j pc j' pc' lg :
  exec_step j pc = ENext j' pc' lg ->
  ID j' = ID j /\ Name j' = Name j /\ work j' = work j /\ execs j' = execs j /\
  cancelled j' = cancelled j /\ delivered j' = delivered j.
Proof.
  destruct pc as [| [|p ps] |err| |]; simpl.
  - intros; simplify_eq; done.
  - destruct (wresult (work j) (cancelled j)); intros; simplify_eq; done.
  - unfold SetProgress, chan_try_send. simpl.
    destruct (updates_closed j); [done|].
    destruct (Nat.ltb _ _); intros; simplify_eq; done.
  - unfold chan_send. destruct (updates_closed j); [done|].
    destruct (Nat.ltb _ _); intros; simplify_eq; done.
  - destruct (updates_closed j); intros; simplify_eq; done.
  - done.
Qed.

Lemma jtrans_fields j j' :
  jtrans j j' -> ID j' = ID j /\ Name j' = Name j /\ work j' = work j.
Proof.
  destruct 1 as [| | |j i pc j1 pc' lg _ Hx|]; try done.
  apply exec_step_fields in Hx. simpl. naive_solver.
Qed.

Lemma terminal_ok_ext j j' err :
  Status j' = Status j -> Error j' = Error j -> Progress j' = Progress j ->
  terminal_ok j err -> terminal_ok j' err.
Proof. intros HS HE HP. destruct err; simpl; rewrite HS, HE, ?HP; done. Qed.

Lemma pc_inv_ext j j' pc :
  Status j' = Status j -> Error j' = Error j -> Progress j' = Progress j ->
  work j' = work j -> stream j' = stream j -> updates_closed j' = updates_closed j ->
  pc_inv j pc -> pc_inv j' pc.
Proof.
  intros HS HE HP HW Hst HC. destruct pc; cbn [pc_inv];
    rewrite ?HS, ?HE, ?HP, ?HW, ?Hst, ?HC; try done.
  - intros (T & ?). split; [eauto using terminal_ok_ext|done].
  - intros ((e & T) & ?). split; [eauto using terminal_ok_ext|done].
  - intros ((e & T) & ?). split; [eauto using terminal_ok_ext|done].
Qed.

Lemma last_or_snoc pre p : last_or 0 (pre ++ [p]) = p.
Proof. unfold last_or. by rewrite last_snoc. Qed.

Lemma exec_step_pc_inv j pc j' pc' lg :
  pc_inv j pc -> exec_step j pc = ENext j' pc' lg -> pc_inv j' pc'.
Proof.
  destruct pc as [| [|p ps] |err| |]; cbn [exec_step pc_inv].
  - intros (HS & HE & HP & Hc & HC) Hx. simplify_eq. cbn [pc_inv]. simpl.
    repeat split; try done. exists []. simpl. by rewrite HP.
  - intros (HS & HE & _ & Hc & HC).
    destruct (wresult (work j) (cancelled j)) as [e|] eqn:Ew; intros Hx; simplify_eq;
      cbn [pc_inv terminal_ok]; simpl; repeat split; done.
  - intros (HS & HE & (pre & Hw & HP) & Hc & HC).
    unfold SetProgress, chan_try_send. simpl. rewrite HC.
    destruct (Nat.ltb _ _); intros Hx; simplify_eq; cbn [pc_inv]; simpl;
      (split; [done|]); (split; [done|]);
      (split; [exists (pre ++ [p]); rewrite last_or_snoc, Hw, <-app_assoc; done|]);
      (split; [|done]); unfold stream in *; simpl in *;
      rewrite ?count_done_app in *; simpl in *; lia.
  - intros (T & Hc & HC). unfold chan_send. rewrite HC.
    destruct (Nat.ltb _ _); intros Hx; simplify_eq. cbn [pc_inv].
    split; [exists err; by apply (terminal_ok_ext j)|].
    unfold stream in *; simpl. rewrite app_assoc.
    split; [rewrite count_done_app, Hc; done|].
    split; [eexists _, _; done|done].
  - intros (T & Hc & He & HC). rewrite HC. intros Hx. simplify_eq. cbn [pc_inv].
    repeat split; try done.
  - done.
Qed.

Lemma once_inv_jtrans j j' : jtrans j j' -> once_inv j -> once_inv j'.
Proof.
  unfold once_inv.
  destruct 1 as [j|j|j|j i pc j1 pc' lg Hi Hx|j u rest Hu].
  - done.
  - simpl. destruct (execs j) as [|pc [|]]; try done;
      apply pc_inv_ext; destruct j; done.
  - simpl. destruct (execs j) as [|pc [|]]; simpl; try done;
      apply pc_inv_ext; destruct j; done.
  - simpl. destruct (exec_step_fields _ _ _ _ _ Hx) as (_ & _ & _ & Hex & _).
    rewrite Hex. destruct (execs j) as [|pc0 [|pc1 pcs]]; [done| |].
    + destruct i; [|done]. simpl in Hi. simplify_eq. simpl.
      intros H. eapply pc_inv_ext; [..|eapply exec_step_pc_inv; eauto]; done.
    + intros _. destruct i as [|[|i]]; simpl; done.
  - assert (stream (set_delivered (delivered j ++ [u]) (set_updates rest j)) = stream j)
      as Hs by (unfold stream; simpl; rewrite Hu, <-app_assoc; done).
    change (execs (set_delivered (delivered j ++ [u]) (set_updates rest j)))
      with (execs j).
    destruct (execs j) as [|pc [|]]; try done; intros H;
      eapply (pc_inv_ext j); [..|exact H]; done.
Qed.

Lemma once_inv_reachable h l j :
  reachable h -> heap h !! l = Some j -> once_inv j.
Proof.
  intros Hr. revert l j. eapply reachable_job_inv; [|exact once_inv_jtrans|exact Hr].
  intros. unfold once_inv. simpl. repeat split; done.
Qed.

Lemma run_reachable h acts h' : reachable h -> run h acts = Some h' -> reachable h'.
Proof.
  revert h. induction acts as [|a acts IH]; simpl; intros h Hr.
  - intros; simplify_eq; done.
  - destruct (hub_step h a) as [hm|] eqn:E; [|done].
    intros. eapply IH; [econstructor; eauto|done].
Qed.

(** ** Concrete runs *)

Lemma hub_A_reachable : reachable hub_A.
Proof. apply (run_reachable hub_init acts_A); [constructor|]. vm_compute. reflexivity. Defined.

Example hub_A_job : heap hub_A !! 0 = Some job_A.
Proof. vm_compute. reflexivity. Qed.

Example job_A_final :
  Status job_A = status_completed /\ Progress job_A = 100%Z /\ execs job_A = [EExit] /\
  updates job_A = [] /\ updates_closed job_A = true /\
  length (delivered job_A) = 12 /\ count_done (delivered job_A) = 1.
Proof. vm_compute. repeat split; reflexivity. Qed.

(** ** C1 *)

(** C1: for a job dispatched exactly once, readers of [Updates()] never
    see more than one terminal update; once the terminal update has been
    received it is the last value received and nothing is left buffered;
    and once the stream is closed and drained, exactly one terminal update
    was received, it was the last one, and a further receive yields the
    closed-channel result (no value). *)
Theorem C1_single_terminal_update_last (h : Hub) (l : nat) (j : Job) :
  reachable h -> heap h !! l = Some j -> length (execs j) = 1 ->
  count_done (delivered j) <= 1 /\
  (count_done (delivered j) = 1 -> ends_done (delivered j) /\ updates j = []) /\
  (updates_closed j = true -> updates j = [] ->
     count_done (delivered j) = 1 /\ ends_done (delivered j) /\
     chan_recv (updates_closed j) (updates j) = RecvClosed).
Proof.
  intros Hr Hl Hlen. pose proof (once_inv_reachable h l j Hr Hl) as Hi.
  unfold once_inv in Hi. destruct (execs j) as [|pc [|]]; simpl in Hlen; try lia.
  assert (Hc : count_done (stream j) = 0 \/
               (count_done (stream j) = 1 /\ ends_done (stream j))).
  { destruct pc; cbn [pc_inv] in Hi; naive_solver. }
  unfold stream in Hc. rewrite count_done_app in Hc.
  split; [lia|]. split.
  - intros H1. destruct Hc as [Hc|[Hc He]]; [lia|].
    cut (updates j = [] /\ ends_done (delivered j)); [tauto|].
    apply ends_done_app_l; [done|rewrite count_done_app; lia|done].
  - intros Hcl Hu. assert (pc = EExit) as ->.
    { destruct pc; cbn [pc_inv] in Hi; [..|done]; exfalso;
        decompose [and] Hi; congruence. }
    destruct Hi as (_ & Hc1 & He & _). unfold stream in *. rewrite Hu, app_nil_r in *.
    rewrite Hcl. done.
Qed.

Lemma C1_witness :
  (reachable hub_A /\ heap hub_A !! 0 = Some job_A /\ length (execs job_A) = 1) /\
  (count_done (delivered job_A) <= 1 /\
   (count_done (delivered job_A) = 1 -> ends_done (delivered job_A) /\ updates job_A = []) /\
   (updates_closed job_A = true -> updates job_A = [] ->
      count_done (delivered job_A) = 1 /\ ends_done (delivered job_A) /\
      chan_recv (updates_closed job_A) (updates job_A) = RecvClosed)).
Proof.
  assert (H : reachable hub_A /\ heap hub_A !! 0 = Some job_A /\ length (execs job_A) = 1).
  { split; [exact hub_A_reachable|]. vm_compute. split; reflexivity. }
  split; [exact H|]. destruct H as (H1 & H2 & H3).
  exact (C1_single_terminal_update_last hub_A 0 job_A H1 H2 H3).
Defined.

(** ** Jobs whose [execute] has finished *)

Lemma fin_pc_ext j j' pc :
  Status j' = Status j -> Error j' = Error j -> Progress j' = Progress j ->
  stream j' = stream j -> fin_pc j pc -> fin_pc j' pc.
Proof.
  intros HS HE HP Hst. destruct pc; cbn [fin_pc]; try done;
    intros (pre & err & Hs & Hc & T); exists pre, err;
    (split; [by rewrite Hst, HP|]); (split; [done|]); eauto using terminal_ok_ext.
Qed.

Lemma exec_step_fin j pc j' pc' lg :
  pc_inv j pc -> fin_pc j pc -> exec_step j pc = ENext j' pc' lg -> fin_pc j' pc'.
Proof.
  destruct pc as [| [|p ps] |err| |]; cbn [exec_step].
  - intros _ _ Hx. simplify_eq. done.
  - intros _ _. destruct (wresult _ _); intros Hx; simplify_eq; done.
  - intros _ _. unfold SetProgress, chan_try_send. simpl.
    destruct (updates_closed j); [done|].
    destruct (Nat.ltb _ _); intros Hx; simplify_eq; done.
  - intros (T & Hc & HC) _. unfold chan_send. rewrite HC.
    destruct (Nat.ltb _ _); intros Hx; simplify_eq. cbn [fin_pc].
    exists (stream j), err. unfold stream. simpl. rewrite app_assoc.
    split; [done|]. split; [done|]. by apply (terminal_ok_ext j).
  - intros _ Hf. destruct (updates_closed j); [done|]. intros Hx. simplify_eq.
    destruct Hf as (pre & err & Hs & Hc & T). exists pre, err.
    split; [exact Hs|]. split; [done|]. by apply (terminal_ok_ext j).
  - done.
Qed.

Lemma fin_inv_jtrans j j' : jtrans j j' -> once_inv j -> fin_inv j -> fin_inv j'.
Proof.
  unfold fin_inv, once_inv.
  destruct 1 as [j|j|j|j i pc j1 pc' lg Hi Hx|j u rest Hu].
  - done.
  - simpl. destruct (execs j) as [|pc [|]]; try done; intros _;
      apply fin_pc_ext; destruct j; done.
  - simpl. destruct (execs j) as [|pc [|]]; simpl; done.
  - simpl. destruct (exec_step_fields _ _ _ _ _ Hx) as (_ & _ & _ & Hex & _).
    rewrite Hex. destruct (execs j) as [|pc0 [|pc1 pcs]]; [done| |].
    + destruct i; [|done]. simpl in Hi. simplify_eq. simpl.
      intros Hp Hf. eapply fin_pc_ext; [..|eapply exec_step_fin; eauto]; done.
    + intros _ _. destruct i as [|[|i]]; simpl; done.
  - assert (stream (set_delivered (delivered j ++ [u]) (set_updates rest j)) = stream j)
      as Hs by (unfold stream; simpl; rewrite Hu, <-app_assoc; done).
    change (execs (set_delivered (delivered j ++ [u]) (set_updates rest j)))
      with (execs j).
    destruct (execs j) as [|pc [|]]; try done; intros _ H;
      eapply (fin_pc_ext j); [..|exact H]; done.
Qed.

Lemma fin_inv_reachable h l j :
  reachable h -> heap h !! l = Some j -> once_inv j /\ fin_inv j.
Proof.
  intros Hr. revert l j.
  apply (reachable_job_inv (fun j => once_inv j /\ fin_inv j)); [| |exact Hr].
  - intros. unfold once_inv, fin_inv. simpl. repeat split; done.
  - intros j j' Ht [Ho Hf]. split; [exact (once_inv_jtrans _ _ Ht Ho)|].
    exact (fin_inv_jtrans _ _ Ht Ho Hf).
Qed.

(** ** C2 *)

(** C2 (amended): for a job dispatched at most once, at every reachable
    point: once its work function has returned [err] ([execute] at the
    send of the final update), [Status] is "completed" exactly when [err]
    is nil and otherwise "failed" with [Error = err]; after that final
    update is queued, its [err] keeps that relation; "completed" always
    comes with [Progress = 100] and no error, "failed" with an error. *)
Theorem C2_terminal_status (h : Hub) (l : nat) (j : Job) :
  reachable h -> heap h !! l = Some j -> length (execs j) <= 1 ->
  (forall err, execs j = [ESend err] ->
     (Status j = status_completed <-> err = None) /\
     (forall e, err = Some e -> Status j = status_failed /\ Error j = Some e)) /\
  ((execs j = [EClose] \/ execs j = [EExit]) ->
     exists pre err, stream j = pre ++ [mkJobUpdate (Progress j) true err] /\
       (Status j = status_completed <-> err = None) /\
       (forall e, err = Some e -> Status j = status_failed /\ Error j = Some e)) /\
  (Status j = status_completed -> Progress j = 100%Z /\ Error j = None) /\
  (Status j = status_failed -> exists e, Error j = Some e).
Proof.
  intros Hr Hl Hlen. destruct (fin_inv_reachable h l j Hr Hl) as [Hi Hf].
  unfold once_inv in Hi. unfold fin_inv in Hf.
  assert (Hterm : forall err, terminal_ok j err ->
            (Status j = status_completed <-> err = None) /\
            (forall e, err = Some e -> Status j = status_failed /\ Error j = Some e)).
  { intros [e|] T; simpl in T.
    - destruct T as [-> ->]. split; [split; [discriminate|done]|naive_solver].
    - destruct T as (-> & _ & _). split; [done|naive_solver]. }
  assert (Hst : Status j = status_completed \/ Status j = status_failed ->
                exists err, terminal_ok j err).
  { destruct (execs j) as [|pc [|]]; simpl in Hlen; try lia;
      [|destruct pc]; cbn [pc_inv] in Hi; try naive_solver;
      rewrite (proj1 Hi); intros [H|H]; discriminate H. }
  split.
  { intros err Hex. rewrite Hex in Hi. cbn [pc_inv] in Hi. destruct Hi as (T & _).
    exact (Hterm err T). }
  split.
  { intros [Hex|Hex]; rewrite Hex in Hf; cbn [fin_pc] in Hf;
      destruct Hf as (pre & err & Hs & _ & T); exists pre, err;
      (split; [exact Hs|exact (Hterm err T)]). }
  split.
  - intros Hc. destruct Hst as [[e|] T]; [by left| |]; simpl in T.
    + rewrite Hc in T. destruct T as [T _]. discriminate T.
    + naive_solver.
  - intros Hf'. destruct Hst as [[e|] T]; [by right| |]; simpl in T.
    + naive_solver.
    + rewrite Hf' in T. destruct T as [T _]. discriminate T.
Qed.

Lemma C2_witness :
  (reachable hub_A /\ heap hub_A !! 0 = Some job_A /\ length (execs job_A) <= 1) /\
  ((forall err, execs job_A = [ESend err] ->
     (Status job_A = status_completed <-> err = None) /\
     (forall e, err = Some e -> Status job_A = status_failed /\ Error job_A = Some e)) /\
  ((execs job_A = [EClose] \/ execs job_A = [EExit]) ->
     exists pre err, stream job_A = pre ++ [mkJobUpdate (Progress job_A) true err] /\
       (Status job_A = status_completed <-> err = None) /\
       (forall e, err = Some e -> Status job_A = status_failed /\ Error job_A = Some e)) /\
  (Status job_A = status_completed -> Progress job_A = 100%Z /\ Error job_A = None) /\
  (Status job_A = status_failed -> exists e, Error job_A = Some e)).
Proof.
  assert (H : reachable hub_A /\ heap hub_A !! 0 = Some job_A /\ length (execs job_A) <= 1).
  { split; [exact hub_A_reachable|]. vm_compute. split; [reflexivity|lia]. }
  split; [exact H|]. destruct H as (H1 & H2 & H3).
  exact (C2_terminal_status hub_A 0 job_A H1 H2 H3).
Defined.

Lemma hub_c2_reachable : reachable hub_c2.
Proof. apply (run_reachable hub_init acts_c2); [constructor|]. vm_compute. reflexivity. Qed.

(** C2 (as stated, refuted): a job submitted twice whose work function
    reports 50 and returns nil is "completed" while its progress is 50:
    the second [execute] reports 50 after the first one completed it. *)
Lemma C2_completed_progress_50 :
  reachable hub_c2 /\ heap hub_c2 !! 0 = Some job_c2 /\
  wresult (work job_c2) (cancelled job_c2) = None /\
  Status job_c2 = status_completed /\ Progress job_c2 = 50%Z /\
  ~ (forall (h : Hub) (l : nat) (j : Job), reachable h -> heap h !! l = Some j ->
       Status j = status_completed -> Progress j = 100%Z).
Proof.
  assert (E : heap hub_c2 !! 0 = Some job_c2) by (vm_compute; reflexivity).
  assert (E1 : Status job_c2 = status_completed) by (vm_compute; reflexivity).
  assert (E2 : Progress job_c2 = 50%Z) by (vm_compute; reflexivity).
  split; [exact hub_c2_reachable|]. split; [exact E|].
  split; [vm_compute; reflexivity|]. split; [exact E1|]. split; [exact E2|].
  intros H. specialize (H hub_c2 0 job_c2 hub_c2_reachable E E1).
  rewrite E2 in H. discriminate H.
Qed.

Lemma hub_full_reachable : reachable hub_full.
Proof. apply (run_reachable hub_init acts_full); [constructor|]. vm_compute. reflexivity. Defined.

(** ** C3 *)

(** C3 (as stated, refuted): the terminal-update push of [execute] is a
    plain channel send, not a non-blocking one: in the reachable state
    where the buffer holds 100 progress updates, the [execute] goroutine
    cannot take its next step (it blocks), and the update is not dropped
    either. *)
Lemma C3_terminal_push_blocks :
  reachable hub_full /\ heap hub_full !! 0 = Some job_full /\
  crashed hub_full = false /\ execs job_full = [ESend None] /\
  length (updates job_full) = updates_cap /\
  exec_step job_full (ESend None) = EBlocked /\
  hub_step hub_full (AExec 0 0) = None.
Proof.
  split; [exact hub_full_reachable|]. vm_compute. repeat split; reflexivity.
Qed.

(** C3 (amended): [Submit]'s enqueue and [SetProgress]'s update send
    never block: [Submit] always returns, enqueuing when there is room and
    leaving the queue unchanged when it is full; [SetProgress] on the open
    stream always returns, appending its update when there is room and
    dropping it when the buffer is full.  The terminal push of [execute]
    blocks exactly while the buffer is full and otherwise appends the
    terminal update; it never drops it. *)
Theorem C3_nonblocking_sends (h : Hub) (l : nat) (j : Job) (p : Z) (err : error) :
  crashed h = false -> heap h !! l = Some j -> updates_closed j = false ->
  (exists h', hub_step h (ASubmit l) = Some h' /\ crashed h' = false /\
     (submit_cap <= length (submit h) -> submit h' = submit h) /\
     (length (submit h) < submit_cap -> submit h' = submit h ++ [l])) /\
  (exists j', SetProgress j p = Some j' /\ Progress j' = p /\
     updates j' = (if Nat.ltb (length (updates j)) updates_cap
                   then updates j ++ [mkJobUpdate p false None] else updates j)) /\
  (exec_step j (ESend err) = EBlocked <-> updates_cap <= length (updates j)) /\
  (length (updates j) < updates_cap ->
     exec_step j (ESend err) =
       ENext (set_updates (updates j ++ [mkJobUpdate (Progress j) true err]) j) EClose []).
Proof.
  intros Hc Hl Hcl. split; [|split; [|split]].
  - unfold hub_step. rewrite Hc. destruct (Submit h l) as [h'|] eqn:E.
    + apply Submit_fields in E as E'. destruct E' as (j' & Hj' & _ & _ & Hcr & _ & _ & Hq).
      exists h'. split; [done|]. split; [by rewrite Hcr|].
      destruct Hq as [(? & -> & _)|(? & -> & _)]; split; intros; try done; lia.
    + exfalso. unfold Submit, chan_try_send in E. rewrite Hl in E. simpl in E.
      destruct (Nat.ltb _ _); discriminate E.
  - unfold SetProgress, chan_try_send. simpl. rewrite Hcl.
    destruct (Nat.ltb _ _); eexists; split; done.
  - simpl. unfold chan_send. rewrite Hcl.
    destruct (Nat.ltb_spec (length (updates j)) updates_cap); split; intros; try done; lia.
  - intros Hlt. simpl. unfold chan_send. rewrite Hcl.
    destruct (Nat.ltb_spec (length (updates j)) updates_cap); [done|lia].
Qed.

Lemma C3_witness :
  (crashed hub_full = false /\ heap hub_full !! 0 = Some job_full /\
   updates_closed job_full = false) /\
  ((exists h', hub_step hub_full (ASubmit 0) = Some h' /\ crashed h' = false /\
     (submit_cap <= length (submit hub_full) -> submit h' = submit hub_full) /\
     (length (submit hub_full) < submit_cap -> submit h' = submit hub_full ++ [0])) /\
  (exists j', SetProgress job_full 7 = Some j' /\ Progress j' = 7%Z /\
     updates j' = (if Nat.ltb (length (updates job_full)) updates_cap
                   then updates job_full ++ [mkJobUpdate 7 false None]
                   else updates job_full)) /\
  (exec_step job_full (ESend None) = EBlocked <-> updates_cap <= length (updates job_full)) /\
  (length (updates job_full) < updates_cap ->
     exec_step job_full (ESend None) =
       ENext (set_updates (updates job_full ++ [mkJobUpdate (Progress job_full) true None])
                job_full) EClose [])).
Proof.
  assert (H : crashed hub_full = false /\ heap hub_full !! 0 = Some job_full /\
              updates_closed job_full = false).
  { vm_compute. repeat split; reflexivity. }
  split; [exact H|]. destruct H as (H1 & H2 & H3).
  exact (C3_nonblocking_sends hub_full 0 job_full 7 None H1 H2 H3).
Defined.

(** ** The registry *)

Lemma step_registry h a h' :
  hub_step h a = Some h' ->
  match a with
  | ASubmit l => exists j, heap h !! l = Some j /\ jobs h' = <[ID j := l]> (jobs h)
  | _ => jobs h' = jobs h
  end.
Proof.
  unfold hub_step. destruct (crashed h); [done|].
  destruct a as [l0 id name w|l0| | | |l0 i|l0|l0]; intros Hs.
  - destruct (heap h !! l0); simplify_eq; done.
  - apply Submit_fields in Hs as (j & Hj & _ & Hjobs & _). eauto.
  - destruct (run_active h); [|done]. destruct (submit h); [done|].
    destruct (heap h !! _); simplify_eq; done.
  - destruct (run_active h && done_closed h); simplify_eq; done.
  - simplify_eq. unfold Stop. destruct (done_closed h); done.
  - destruct (heap h !! l0) as [j0|]; [|done]. destruct (execs j0 !! i); [|done].
    destruct (exec_step j0 _); simplify_eq; done.
  - destruct (heap h !! l0) as [j0|]; [|done].
    destruct (chan_recv _ _); simplify_eq; done.
  - destruct (heap h !! l0); simplify_eq; done.
Qed.

Lemma run_persist acts h0 h l j :
  run h0 acts = Some h -> heap h0 !! l = Some j ->
  exists j', heap h !! l = Some j' /\ ID j' = ID j /\ work j' = work j.
Proof.
  revert h0 j. induction acts as [|a acts IH]; simpl; intros h0 j Hrun Hl.
  - simplify_eq. eauto.
  - destruct (hub_step h0 a) as [hm|] eqn:E; [|done].
    destruct (step_heap_persist _ _ _ _ _ E Hl) as (jm & Hm & Ht).
    destruct (jtrans_fields _ _ Ht) as (Hid & _ & Hw).
    destruct (IH _ _ Hrun Hm) as (j' & ? & ? & ?). exists j'. split; [done|]. split; congruence.
Qed.

Lemma run_registry acts h0 h id :
  run h0 acts = Some h ->
  (is_Some (jobs h !! id) <->
   is_Some (jobs h0 !! id) \/
   exists l j, ASubmit l ∈ acts /\ heap h !! l = Some j /\ ID j = id).
Proof.
  revert h0. induction acts as [|a acts IH]; simpl; intros h0 Hrun.
  - simplify_eq. split; [tauto|]. intros [?|(l & j & Hin & _)]; [done|].
    by apply not_elem_of_nil in Hin.
  - destruct (hub_step h0 a) as [hm|] eqn:E; [|done].
    rewrite (IH hm Hrun). pose proof (step_registry _ _ _ E) as Hreg.
    assert (Hcons : forall l, ASubmit l ∈ a :: acts <-> ASubmit l = a \/ ASubmit l ∈ acts)
      by (intros; apply elem_of_cons).
    destruct a as [l0 id0 name w|l0| | | |l0 i|l0|l0];
      try (rewrite Hreg; setoid_rewrite Hcons; split;
           [intros [?|(l & j & ? & ? & ?)]; [by left|right; eauto 10]
           |intros [?|(l & j & [Heq|?] & ? & ?)]; [by left|discriminate Heq|right; eauto]]).
    destruct Hreg as (j0 & Hj0 & Hjobs). rewrite Hjobs.
    destruct (step_heap_persist _ _ _ _ _ E Hj0) as (jm & Hjm & Ht).
    destruct (jtrans_fields _ _ Ht) as (Hidm & _).
    destruct (run_persist _ _ _ _ _ Hrun Hjm) as (j0' & Hj0' & Hid & _).
    setoid_rewrite Hcons. rewrite lookup_insert_is_Some'. split.
    + intros [[Heq|?]|(l & j & ? & ? & ?)].
      * right. exists l0, j0'. split; [by left|]. split; [done|]. congruence.
      * by left.
      * right. eauto 10.
    + intros [?|(l & j & [Heq|?] & Hl & Hid')].
      * left. by right.
      * injection Heq as ->. left. left. congruence.
      * right. eauto 10.
Qed.

(** ** C4 *)

(** C4: right after [Submit(job)], [Get(job.ID)] finds the job, whatever
    the state of the admission queue; and along any execution from
    [NewHub], [Get(id)] finds a job exactly when some job with identifier
    [id] was passed to [Submit]. *)
Theorem C4_get_after_submit :
  (forall (h h' : Hub) (l : nat) (j : Job),
     heap h !! l = Some j -> hub_step h (ASubmit l) = Some h' ->
     Get h' (ID j) = Some l /\ get_job h' (ID j) = Some j) /\
  (forall (acts : list Action) (h : Hub) (id : string),
     run hub_init acts = Some h ->
     (is_Some (Get h id) <->
      exists l j, ASubmit l ∈ acts /\ heap h !! l = Some j /\ ID j = id)).
Proof.
  split.
  - intros h h' l j Hl Hs. unfold hub_step in Hs. destruct (crashed h); [done|].
    apply Submit_fields in Hs as (j' & Hj' & Hheap & Hjobs & _).
    rewrite Hl in Hj'. injection Hj' as <-.
    unfold get_job, Get. rewrite Hjobs, lookup_insert_eq. simpl. by rewrite Hheap.
  - intros acts h id Hrun. unfold Get. rewrite (run_registry _ _ _ _ Hrun).
    simpl. rewrite lookup_empty. split; [intros [[? ?]|?]; [done|done]|by right].
Qed.

Lemma C4_witness :
  (heap hub_full !! 0 = Some job_full /\
   hub_step hub_full (ASubmit 0) = Some (hub_of (hub_step hub_full (ASubmit 0)))) /\
  (Get (hub_of (hub_step hub_full (ASubmit 0))) (ID job_full) = Some 0 /\
   get_job (hub_of (hub_step hub_full (ASubmit 0))) (ID job_full) = Some job_full) /\
  run hub_init acts_A = Some hub_A /\
  (is_Some (Get hub_A demo_id) <->
   exists l j, ASubmit l ∈ acts_A /\ heap hub_A !! l = Some j /\ ID j = demo_id).
Proof.
  assert (H1 : heap hub_full !! 0 = Some job_full /\
               hub_step hub_full (ASubmit 0) = Some (hub_of (hub_step hub_full (ASubmit 0)))).
  { vm_compute. split; reflexivity. }
  assert (H2 : run hub_init acts_A = Some hub_A) by (vm_compute; reflexivity).
  split; [exact H1|]. split; [exact (proj1 C4_get_after_submit _ _ _ _ (proj1 H1) (proj2 H1))|].
  split; [exact H2|]. exact (proj2 C4_get_after_submit acts_A hub_A demo_id H2).
Defined.

(** ** A job that was never admitted *)

Lemma idle_step h a h' id l :
  hub_step h a = Some h' -> idle_at h id l ->
  (forall l' j', a = ASubmit l' -> heap h' !! l' = Some j' -> ID j' <> id) ->
  idle_at h' id l.
Proof.
  unfold idle_at, Get, hub_step. destruct (crashed h); [done|].
  intros Hs (Hg & j & Hl & Hid & HS & Hex & Hq) Hno.
  destruct a as [l0 id0 name w|l0| | | |l0 i|l0|l0].
  - destruct (heap h !! l0) eqn:E; simplify_eq; simpl.
    assert (l0 <> l) by congruence. rewrite lookup_insert_ne by done. eauto 10.
  - apply Submit_fields in Hs as Hf. destruct Hf as (j0 & Hj0 & Hheap & Hjobs & _ & _ & _ & Hsub).
    assert (ID j0 <> id) as Hne by (apply (Hno l0); [done|by rewrite Hheap]).
    assert (l0 <> l) as Hl0 by (intros ->; congruence).
    rewrite Hjobs, lookup_insert_ne by done. rewrite Hheap. split; [done|].
    exists j. repeat split; try done.
    destruct Hsub as [(_ & -> & _)|(_ & -> & _)]; [|done].
    rewrite elem_of_app, list_elem_of_singleton. intros [?|?]; congruence.
  - destruct (run_active h); [|done]. destruct (submit h) as [|l0 q] eqn:Eq; [done|].
    destruct (heap h !! l0) eqn:E; simplify_eq; simpl.
    apply not_elem_of_cons in Hq as [Hne Hq].
    rewrite lookup_insert_ne by done. eauto 10.
  - destruct (run_active h && done_closed h); simplify_eq; simpl. eauto 10.
  - simplify_eq. unfold Stop. destruct (done_closed h); simpl; [eauto 10|].
    rewrite cancel_all_lookup, Hl. split; [done|].
    case_decide; simpl; eexists; (split; [reflexivity|]); simpl; eauto.
  - destruct (heap h !! l0) as [j0|] eqn:E; [|done].
    destruct (execs j0 !! i) as [pc|] eqn:Epc; [|done].
    assert (l0 <> l) by (intros ->; rewrite Hl in E; injection E as <-;
                         rewrite Hex in Epc; done).
    destruct (exec_step j0 pc); simplify_eq; simpl; [|eauto 10].
    rewrite lookup_insert_ne by done. eauto 10.
  - destruct (heap h !! l0) as [j0|] eqn:E; [|done].
    destruct (chan_recv _ _); simplify_eq; simpl; [|eauto 10].
    destruct (decide (l0 = l)) as [->|Hne].
    + rewrite lookup_insert_eq. rewrite Hl in E. injection E as <-.
      split; [done|]. eexists; split; [reflexivity|]. simpl. eauto.
    + rewrite lookup_insert_ne by done. eauto 10.
  - destruct (heap h !! l0) as [j0|] eqn:E; simplify_eq; simpl.
    destruct (decide (l0 = l)) as [->|Hne].
    + rewrite lookup_insert_eq. rewrite Hl in E. injection E as <-.
      split; [done|]. eexists; split; [reflexivity|]. simpl. eauto.
    + rewrite lookup_insert_ne by done. eauto 10.
Qed.

Lemma idle_run acts h1 h2 id l :
  run h1 acts = Some h2 -> idle_at h1 id l ->
  (forall l' j', ASubmit l' ∈ acts -> heap h2 !! l' = Some j' -> ID j' <> id) ->
  idle_at h2 id l.
Proof.
  revert h1. induction acts as [|a acts IH]; simpl; intros h1 Hrun Hi Hno.
  - by simplify_eq.
  - destruct (hub_step h1 a) as [hm|] eqn:E; [|done].
    apply (IH hm); [done| |].
    + apply (idle_step h1 a); [done|done|]. intros l' jm -> Hm.
      destruct (run_persist _ _ _ _ _ Hrun Hm) as (j' & H' & Hid & _).
      rewrite <- Hid. apply (Hno l'); [apply list_elem_of_here|done].
    + intros l' j' Hin. apply Hno. by apply list_elem_of_further.
Qed.

(** ** C5 *)

(** C5: a [Submit] of a job that is neither running nor waiting in the
    admission queue, made while the queue is full, returns normally (no
    panic), leaves the queue as it was and adds exactly one warning-level
    log record; the job is registered; and in every later execution in
    which no job carrying the same identifier is submitted again, [Get]
    still returns it, its status is still "pending", and it is never
    dispatched (no [execute] goroutine, not in the queue). *)
Theorem C5_dropped_submission (h : Hub) (l : nat) (j : Job) :
  reachable h -> crashed h = false -> heap h !! l = Some j -> execs j = [] ->
  l ∉ submit h -> submit_cap <= length (submit h) ->
  exists h', hub_step h (ASubmit l) = Some h' /\ crashed h' = false /\
    logs h' = logs h ++ [mkLog LWarn "job queue full"%string (ID j)] /\
    submit h' = submit h /\
    forall (acts : list Action) (h'' : Hub), run h' acts = Some h'' ->
      (forall l' j', ASubmit l' ∈ acts -> heap h'' !! l' = Some j' -> ID j' <> ID j) ->
      Get h'' (ID j) = Some l /\
      exists j'', heap h'' !! l = Some j'' /\ Status j'' = status_pending /\
        execs j'' = [] /\ l ∉ submit h''.
Proof.
  intros Hr Hc Hl Hex Hq Hfull.
  pose proof (once_inv_reachable h l j Hr Hl) as Hi. unfold once_inv in Hi.
  rewrite Hex in Hi. destruct Hi as (HS & _).
  apply Nat.ltb_ge in Hfull as Hfull'.
  eexists. split.
  { unfold hub_step, Submit, chan_try_send. rewrite Hc, Hl. simpl. rewrite Hfull'.
    reflexivity. }
  simpl. split; [done|]. split; [done|]. split; [done|].
  intros acts h'' Hrun Hno.
  assert (Hidle : idle_at h'' (ID j) l).
  { eapply idle_run; [exact Hrun| |exact Hno].
    unfold idle_at, Get. simpl. rewrite lookup_insert_eq. split; [done|]. eauto 10. }
  destruct Hidle as (Hg & j'' & Hl'' & _ & HS'' & Hex'' & Hq''). eauto 10.
Qed.

Lemma hub_Q_reachable : reachable hub_Q.
Proof. apply (run_reachable hub_init acts_Q); [constructor|]. vm_compute. reflexivity. Defined.

Lemma C5_witness :
  (reachable hub_Q /\ crashed hub_Q = false /\ heap hub_Q !! 100 = Some job_Q /\
   execs job_Q = [] /\ (100 ∉ submit hub_Q) /\ submit_cap <= length (submit hub_Q)) /\
  exists h', hub_step hub_Q (ASubmit 100) = Some h' /\ crashed h' = false /\
    logs h' = logs hub_Q ++ [mkLog LWarn "job queue full"%string (ID job_Q)] /\
    submit h' = submit hub_Q /\
    forall (acts : list Action) (h'' : Hub), run h' acts = Some h'' ->
      (forall l' j', ASubmit l' ∈ acts -> heap h'' !! l' = Some j' -> ID j' <> ID job_Q) ->
      Get h'' (ID job_Q) = Some 100 /\
      exists j'', heap h'' !! 100 = Some j'' /\ Status j'' = status_pending /\
        execs j'' = [] /\ 100 ∉ submit h''.
Proof.
  assert (Hq : submit hub_Q = seq 0 100) by (vm_compute; reflexivity).
  assert (H : reachable hub_Q /\ crashed hub_Q = false /\ heap hub_Q !! 100 = Some job_Q /\
              execs job_Q = [] /\ (100 ∉ submit hub_Q) /\ submit_cap <= length (submit hub_Q)).
  { split; [exact hub_Q_reachable|]. rewrite Hq, elem_of_seq, length_seq.
    split; [vm_compute; reflexivity|]. split; [vm_compute; reflexivity|].
    split; [vm_compute; reflexivity|]. split; [lia|]. unfold submit_cap. lia. }
  split; [exact H|]. destruct H as (H1 & H2 & H3 & H4 & H5 & H6).
  exact (C5_dropped_submission hub_Q 100 job_Q H1 H2 H3 H4 H5 H6).
Defined.

(** ** C6 *)

Lemma SetProgress_open j p :
  updates_closed j = false ->
  exists j', SetProgress j p = Some j' /\ Progress j' = p /\
    Status j' = Status j /\ Error j' = Error j /\ updates_closed j' = false /\
    updates j' = (if Nat.ltb (length (updates j)) updates_cap
                  then updates j ++ [mkJobUpdate p false None] else updates j).
Proof.
  intros Hc. unfold SetProgress, chan_try_send. simpl. rewrite Hc.
  destruct (Nat.ltb _ _); eexists; split; done.
Qed.

(** C6: on the open stream, [SetProgress(p)] stores [p] in [Progress]
    (atomically, as under [j.mu]) and then appends a progress-only update
    when the buffer has room, dropping it silently when it is full; after
    any sequence of calls [Progress] is the argument of the last call,
    whether or not updates were dropped; inside [execute], when the work
    function returns, [Progress] is the last value it reported. *)
Theorem C6_set_progress_last (j : Job) (p : Z) (ps : list Z) :
  updates_closed j = false ->
  (exists j', SetProgress j p = Some j' /\ Progress j' = p /\
     Status j' = Status j /\ Error j' = Error j /\ updates_closed j' = false /\
     updates j' = (if Nat.ltb (length (updates j)) updates_cap
                   then updates j ++ [mkJobUpdate p false None] else updates j)) /\
  (exists j', set_progress_all j (ps ++ [p]) = Some j' /\ Progress j' = p) /\
  (forall (h : Hub) (l : nat) (jr : Job),
     reachable h -> heap h !! l = Some jr -> execs jr = [EWork []] ->
     Progress jr = last_or 0 (wprogress (work jr))).
Proof.
  intros Hc. split; [by apply SetProgress_open|]. split.
  - revert j Hc. induction ps as [|q ps IH]; intros j Hc; simpl.
    + destruct (SetProgress_open j p Hc) as (j' & -> & HP & _). eauto.
    + destruct (SetProgress_open j q Hc) as (j' & -> & _ & _ & _ & Hc' & _). eauto.
  - intros h l jr Hr Hl Hex. pose proof (once_inv_reachable h l jr Hr Hl) as Hi.
    unfold once_inv in Hi. rewrite Hex in Hi. cbn [pc_inv] in Hi.
    destruct Hi as (_ & _ & (pre & Hw & HP) & _). rewrite Hw, app_nil_r. done.
Qed.

Lemma C6_witness :
  updates_closed job_full = false /\
  ((exists j', SetProgress job_full 42 = Some j' /\ Progress j' = 42%Z /\
     Status j' = Status job_full /\ Error j' = Error job_full /\ updates_closed j' = false /\
     updates j' = (if Nat.ltb (length (updates job_full)) updates_cap
                   then updates job_full ++ [mkJobUpdate 42 false None]
                   else updates job_full)) /\
  (exists j', set_progress_all job_full ([3; 5] ++ [42])%Z = Some j' /\ Progress j' = 42%Z) /\
  (forall (h : Hub) (l : nat) (jr : Job),
     reachable h -> heap h !! l = Some jr -> execs jr = [EWork []] ->
     Progress jr = last_or 0 (wprogress (work jr)))).
Proof.
  assert (H : updates_closed job_full = false) by (vm_compute; reflexivity).
  split; [exact H|]. exact (C6_set_progress_last job_full 42 [3; 5]%Z H).
Defined.

(** ** C7 *)

Lemma in_registry_cancelled js hp id l j :
  js !! id = Some l -> hp !! l = Some j -> cancel_all js hp !! l = Some (Cancel j).
Proof.
  intros Hjs Hl. rewrite cancel_all_lookup, Hl.
  rewrite decide_True; [done|].
  apply list_elem_of_fmap. exists (id, l). split; [done|]. by apply elem_of_map_to_list.
Qed.

(** C7: [Stop()] can always be taken, whatever the jobs are doing: it
    closes [done] (after which the dispatch loop may return), sets the
    cancellation flag of every job in the registry whatever its status,
    and changes nothing else of any job (no execute goroutine is waited
    for or advanced); a second [Stop()] panics and stops the process. *)
Theorem C7_stop (h : Hub) :
  crashed h = false ->
  (done_closed h = false ->
     exists h', hub_step h AStop = Some h' /\ crashed h' = false /\
       done_closed h' = true /\ jobs h' = jobs h /\ submit h' = submit h /\
       run_active h' = run_active h /\
       (forall id l j, jobs h !! id = Some l -> heap h !! l = Some j ->
          exists j', heap h' !! l = Some j' /\ cancelled j' = true /\
            Status j' = Status j /\ execs j' = execs j) /\
       (forall l j', heap h' !! l = Some j' ->
          exists j, heap h !! l = Some j /\ Status j' = Status j /\
            Progress j' = Progress j /\ execs j' = execs j /\ updates j' = updates j) /\
       (run_active h = true -> hub_step h' ARunDone = Some (set_run_active false h'))) /\
  (done_closed h = true -> hub_step h AStop = Some (set_crashed h)) /\
  (forall h1, hub_step h AStop = Some h1 -> crashed h1 = false ->
     exists h2, hub_step h1 AStop = Some h2 /\ crashed h2 = true).
Proof.
  intros Hc. unfold hub_step. rewrite Hc. unfold Stop. split; [|split].
  - intros Hd. rewrite Hd. eexists. split; [reflexivity|]. simpl.
    do 5 (split; [done|]). split; [|split].
    + intros id l j Hjs Hl. eexists. split; [eapply in_registry_cancelled; eauto|]. done.
    + intros l j' Hl. apply cancel_all_lookup_Some in Hl as (j0 & ? & [->| ->]); eauto 10.
    + intros Ha. simpl. rewrite Hc, Ha. reflexivity.
  - intros Hd. rewrite Hd. reflexivity.
  - intros h1 Hs Hc1. destruct (done_closed h) eqn:Hd.
    + injection Hs as <-. simpl in Hc1. discriminate Hc1.
    + injection Hs as <-. simpl. rewrite Hc. eexists. split; [reflexivity|done].
Qed.

Lemma C7_witness :
  crashed hub_A = false /\
  ((done_closed hub_A = false ->
     exists h', hub_step hub_A AStop = Some h' /\ crashed h' = false /\
       done_closed h' = true /\ jobs h' = jobs hub_A /\ submit h' = submit hub_A /\
       run_active h' = run_active hub_A /\
       (forall id l j, jobs hub_A !! id = Some l -> heap hub_A !! l = Some j ->
          exists j', heap h' !! l = Some j' /\ cancelled j' = true /\
            Status j' = Status j /\ execs j' = execs j) /\
       (forall l j', heap h' !! l = Some j' ->
          exists j, heap hub_A !! l = Some j /\ Status j' = Status j /\
            Progress j' = Progress j /\ execs j' = execs j /\ updates j' = updates j) /\
       (run_active hub_A = true ->
          hub_step h' ARunDone = Some (set_run_active false h'))) /\
  (done_closed hub_A = true -> hub_step hub_A AStop = Some (set_crashed hub_A)) /\
  (forall h1, hub_step hub_A AStop = Some h1 -> crashed h1 = false ->
     exists h2, hub_step h1 AStop = Some h2 /\ crashed h2 = true)).
Proof.
  assert (H : crashed hub_A = false) by (vm_compute; reflexivity).
  split; [exact H|]. exact (C7_stop hub_A H).
Defined.

(** ** C8 *)

Lemma step_status_source h a h' l j j' :
  hub_step h a = Some h' -> heap h !! l = Some j -> heap h' !! l = Some j' ->
  Status j' <> Status j -> exists i, a = AExec l i.
Proof.
  unfold hub_step. destruct (crashed h); [done|].
  destruct a as [l0 id name w|l0| | | |l0 i|l0|l0]; intros Hs Hl Hl' Hne.
  - destruct (heap h !! l0) eqn:E; simplify_eq; simpl in Hl'.
    rewrite lookup_insert_ne in Hl' by congruence. congruence.
  - apply Submit_fields in Hs as (j0 & _ & Eh & _). rewrite Eh in Hl'. congruence.
  - destruct (run_active h); [|done]. destruct (submit h) as [|l0 q]; [done|].
    destruct (heap h !! l0) as [j0|] eqn:E; simplify_eq; simpl in Hl'.
    destruct (decide (l0 = l)) as [->|?].
    + rewrite lookup_insert_eq in Hl'. simplify_eq; done.
    + rewrite lookup_insert_ne in Hl' by done. congruence.
  - destruct (run_active h && done_closed h); simplify_eq. simpl in Hl'. congruence.
  - simplify_eq. unfold Stop in Hl'. destruct (done_closed h); simpl in Hl'; [congruence|].
    apply cancel_all_lookup_Some in Hl' as (j0 & ? & [->| ->]); simplify_eq; done.
  - destruct (heap h !! l0) as [j0|] eqn:E; [|done].
    destruct (execs j0 !! i); [|done].
    destruct (exec_step j0 _); simplify_eq; simpl in Hl'; try congruence.
    destruct (decide (l0 = l)) as [->|?]; [eauto|].
    rewrite lookup_insert_ne in Hl' by done. congruence.
  - destruct (heap h !! l0) as [j0|] eqn:E; [|done].
    destruct (chan_recv _ _); simplify_eq; simpl in Hl'; try congruence.
    destruct (decide (l0 = l)) as [->|?].
    + rewrite lookup_insert_eq in Hl'. simplify_eq; done.
    + rewrite lookup_insert_ne in Hl' by done. congruence.
  - destruct (heap h !! l0) as [j0|] eqn:E; simplify_eq; simpl in Hl'.
    destruct (decide (l0 = l)) as [->|?].
    + rewrite lookup_insert_eq in Hl'. simplify_eq; done.
    + rewrite lookup_insert_ne in Hl' by done. congruence.
Qed.

Lemma jtrans_execs_length j j' : jtrans j j' -> length (execs j) <= length (execs j').
Proof.
  destruct 1 as [| | |j i pc j1 pc' lg _ Hx|]; simpl; rewrite ?length_app, ?length_insert;
    try lia.
  destruct (exec_step_fields _ _ _ _ _ Hx) as (_ & _ & _ & -> & _). lia.
Qed.

Lemma exec_step_status j pc j' pc' lg :
  pc_inv j pc -> exec_step j pc = ENext j' pc' lg -> status_step (Status j) (Status j').
Proof.
  unfold status_step. destruct pc as [| [|p ps] |err| |]; cbn [exec_step pc_inv].
  - intros (HS & _) Hx. simplify_eq. simpl. right. left. done.
  - intros (HS & _). destruct (wresult _ _); intros Hx; simplify_eq; simpl; right; right; eauto.
  - intros _. unfold SetProgress, chan_try_send. simpl.
    destruct (updates_closed j); [done|].
    destruct (Nat.ltb _ _); intros Hx; simplify_eq; left; done.
  - intros _. unfold chan_send. destruct (updates_closed j); [done|].
    destruct (Nat.ltb _ _); intros Hx; simplify_eq; left; done.
  - intros _. destruct (updates_closed j); intros Hx; simplify_eq; left; done.
  - done.
Qed.

Lemma exec_step_status_target j pc j' pc' lg :
  exec_step j pc = ENext j' pc' lg ->
  Status j' = Status j \/ Status j' = status_running \/
  Status j' = status_completed \/ Status j' = status_failed.
Proof.
  destruct pc as [| [|p ps] |err| |]; cbn [exec_step].
  - intros Hx. simplify_eq. simpl. tauto.
  - destruct (wresult _ _); intros Hx; simplify_eq; simpl; tauto.
  - unfold SetProgress, chan_try_send. simpl.
    destruct (updates_closed j); [done|].
    destruct (Nat.ltb _ _); intros Hx; simplify_eq; left; done.
  - unfold chan_send. destruct (updates_closed j); [done|].
    destruct (Nat.ltb _ _); intros Hx; simplify_eq; left; done.
  - destruct (updates_closed j); intros Hx; simplify_eq; left; done.
  - done.
Qed.

Lemma step_status_target h a h' l j j' :
  hub_step h a = Some h' -> heap h !! l = Some j -> heap h' !! l = Some j' ->
  Status j' <> Status j ->
  Status j' = status_running \/ Status j' = status_completed \/ Status j' = status_failed.
Proof.
  intros Hs Hl Hl' Hne.
  destruct (step_heap _ _ _ _ _ Hs Hl') as [(Hn & _)|(j0 & Hj0 & Ht)]; [congruence|].
  rewrite Hl in Hj0. injection Hj0 as <-.
  destruct Ht as [j|j|j|j i pc j1 pc' lg Hi Hx|j u rest Hu]; try (exfalso; apply Hne; done).
  simpl in Hne |- *.
  destruct (exec_step_status_target _ _ _ _ _ Hx) as [E|E]; [congruence|exact E].
Qed.

Lemma step_status_once h a h' l j j' :
  reachable h -> hub_step h a = Some h' -> heap h !! l = Some j -> heap h' !! l = Some j' ->
  length (execs j') <= 1 -> status_step (Status j) (Status j').
Proof.
  intros Hr Hs Hl Hl' Hlen.
  destruct (step_heap _ _ _ _ _ Hs Hl') as [(Hn & _)|(j0 & Hj0 & Ht)]; [congruence|].
  rewrite Hl in Hj0. injection Hj0 as <-.
  pose proof (once_inv_reachable h l j Hr Hl) as Hi.
  unfold status_step. destruct Ht as [j|j|j|j i pc j1 pc' lg Hi' Hx|j u rest Hu];
    try (left; done).
  destruct (exec_step_fields _ _ _ _ _ Hx) as (_ & _ & _ & Hex & _).
  apply (exec_step_status j pc j1 pc' lg); [|done].
  unfold once_inv in Hi. simpl in Hlen. rewrite length_insert, Hex in Hlen.
  destruct (execs j) as [|pc0 [|]]; simpl in Hlen; try lia; [done|].
  destruct i; [|done]. simpl in Hi'. congruence.
Qed.

Lemma run_execs_length acts h h2 l j j2 :
  run h acts = Some h2 -> heap h !! l = Some j -> heap h2 !! l = Some j2 ->
  length (execs j) <= length (execs j2).
Proof.
  revert h j. induction acts as [|a acts IH]; simpl; intros h j Hrun Hl Hl2.
  - injection Hrun as <-. rewrite Hl in Hl2. injection Hl2 as <-. done.
  - destruct (hub_step h a) as [hm|] eqn:E; [|done].
    destruct (step_heap_persist _ _ _ _ _ E Hl) as (jm & Hm & Ht).
    pose proof (jtrans_execs_length _ _ Ht). pose proof (IH _ _ Hrun Hm Hl2). lia.
Qed.

Lemma run_status_final acts h h2 l j j2 :
  reachable h -> run h acts = Some h2 -> heap h !! l = Some j -> heap h2 !! l = Some j2 ->
  length (execs j2) <= 1 ->
  (Status j = status_completed \/ Status j = status_failed) -> Status j2 = Status j.
Proof.
  revert h j. induction acts as [|a acts IH]; simpl; intros h j Hr Hrun Hl Hl2 Hlen Hterm.
  - injection Hrun as <-. rewrite Hl in Hl2. injection Hl2 as <-. done.
  - destruct (hub_step h a) as [hm|] eqn:E; [|done].
    destruct (step_heap_persist _ _ _ _ _ E Hl) as (jm & Hm & Ht).
    pose proof (run_execs_length _ _ _ _ _ _ Hrun Hm Hl2) as Hle.
    assert (Hsm : status_step (Status j) (Status jm))
      by (apply (step_status_once h a hm l j jm); [done..|lia]).
    assert (Heq : Status jm = Status j).
    { destruct Hsm as [Hs|[[Hp _]|[Hp _]]]; [done| |];
        rewrite Hp in Hterm; destruct Hterm as [Hc|Hc]; discriminate Hc. }
    rewrite <- Heq. apply (IH hm jm); [econstructor; eauto|done|done|done|done|].
    rewrite Heq. done.
Qed.

(** C8 (amended): a job is created "pending"; only a step of the job's
    own [execute] goroutine changes its status, and only to "running",
    "completed" or "failed"; for a job dispatched at most once, every
    action moves its status along pending -> running -> completed | failed
    or leaves it unchanged, and no sequence of actions moves it away from
    "completed" or "failed". *)
Theorem C8_status_machine (h h' : Hub) (a : Action) (l : nat) (j' : Job) :
  reachable h -> hub_step h a = Some h' -> heap h' !! l = Some j' ->
  (heap h !! l = None -> Status j' = status_pending) /\
  (forall j, heap h !! l = Some j ->
     (Status j' <> Status j ->
        (exists i, a = AExec l i) /\
        (Status j' = status_running \/ Status j' = status_completed \/
         Status j' = status_failed)) /\
     (length (execs j') <= 1 -> status_step (Status j) (Status j'))) /\
  (forall acts h2 j2, run h' acts = Some h2 -> heap h2 !! l = Some j2 ->
     length (execs j2) <= 1 ->
     (Status j' = status_completed \/ Status j' = status_failed) -> Status j2 = Status j').
Proof.
  intros Hr Hs Hl'. split; [|split].
  - intros Hn. destruct (step_heap _ _ _ _ _ Hs Hl') as [(_ & id & name & w & ->)|(j & Hj & _)];
      [done|congruence].
  - intros j Hl. split.
    + intros Hne. split; [eauto using step_status_source|].
      exact (step_status_target h a h' l j j' Hs Hl Hl' Hne).
    + exact (step_status_once h a h' l j j' Hr Hs Hl Hl').
  - intros acts h2 j2 Hrun Hl2 Hlen Hterm.
    exact (run_status_final acts h' h2 l j' j2 (reach_step h a h' Hr Hs) Hrun Hl' Hl2 Hlen Hterm).
Qed.

Lemma hub_dup_reachable : reachable hub_dup.
Proof. apply (run_reachable hub_init acts_dup); [constructor|]. vm_compute. reflexivity. Defined.

(** C8 (as stated, refuted): a job that reached "completed" is set back
    to "running" by the next action, the start of its second [execute]. *)
Lemma C8_completed_back_to_running :
  ~ (forall (h h' : Hub) (a : Action) (l : nat) (j j' : Job),
       reachable h -> hub_step h a = Some h' ->
       heap h !! l = Some j -> heap h' !! l = Some j' ->
       (Status j = status_completed \/ Status j = status_failed) ->
       Status j' <> status_pending /\ Status j' <> status_running).
Proof.
  intros H.
  assert (E1 : hub_step hub_dup (AExec 0 1) = Some hub_dup') by (vm_compute; reflexivity).
  assert (E2 : heap hub_dup !! 0 = Some job_dup) by (vm_compute; reflexivity).
  assert (E3 : heap hub_dup' !! 0 = Some job_dup') by (vm_compute; reflexivity).
  assert (E4 : Status job_dup = status_completed) by (vm_compute; reflexivity).
  destruct (H _ _ _ _ _ _ hub_dup_reachable E1 E2 E3 (or_introl E4)) as [_ Hn].
  apply Hn. vm_compute. reflexivity.
Qed.

Lemma hub_start_reachable : reachable hub_start.
Proof. apply (run_reachable hub_init acts_start); [constructor|]. vm_compute. reflexivity. Qed.

Lemma C8_witness :
  (reachable hub_start /\ hub_step hub_start (AExec 0 0) = Some hub_started /\
   heap hub_started !! 0 = Some job_started) /\
  (exists j, heap hub_start !! 0 = Some j /\ Status j = status_pending /\
     Status job_started = status_running) /\
  ((heap hub_start !! 0 = None -> Status job_started = status_pending) /\
   (forall j, heap hub_start !! 0 = Some j ->
      (Status job_started <> Status j ->
         (exists i, AExec 0 0 = AExec 0 i) /\
         (Status job_started = status_running \/ Status job_started = status_completed \/
          Status job_started = status_failed)) /\
      (length (execs job_started) <= 1 -> status_step (Status j) (Status job_started))) /\
   (forall acts h2 j2, run hub_started acts = Some h2 -> heap h2 !! 0 = Some j2 ->
      length (execs j2) <= 1 ->
      (Status job_started = status_completed \/ Status job_started = status_failed) ->
      Status j2 = Status job_started)).
Proof.
  assert (H : reachable hub_start /\ hub_step hub_start (AExec 0 0) = Some hub_started /\
              heap hub_started !! 0 = Some job_started).
  { split; [exact hub_start_reachable|]. vm_compute. split; reflexivity. }
  split; [exact H|]. split.
  { exists (job_of hub_start 0). vm_compute. split; [reflexivity|split; reflexivity]. }
  destruct H as (H1 & H2 & H3).
  exact (C8_status_machine hub_start hub_started (AExec 0 0) 0 job_started H1 H2 H3).
Defined.

(** ** C9 *)

Lemma exec_step_range j pc j' pc' lg :
  exec_step j pc = ENext j' pc' lg ->
  Forall in_range (wprogress (work j)) -> in_range (Progress j) ->
  (forall ps, pc = EWork ps -> Forall in_range ps) ->
  in_range (Progress j') /\ (forall ps, pc' = EWork ps -> Forall in_range ps).
Proof.
  intros Hx Hw HP Hpc. destruct pc as [| [|p ps] |err| |]; simpl in Hx.
  - simplify_eq. simpl. split; [done|]. intros ps Heq. simplify_eq. done.
  - destruct (wresult _ _); simplify_eq; simpl; (split; [|done]);
      [done|unfold in_range; lia].
  - specialize (Hpc _ eq_refl). apply Forall_cons in Hpc as [Hp Hps].
    unfold SetProgress, chan_try_send in Hx. simpl in Hx.
    destruct (updates_closed j); [done|].
    destruct (Nat.ltb _ _); simplify_eq; simpl; split; try done; intros ? Heq; simplify_eq; done.
  - unfold chan_send in Hx. destruct (updates_closed j); [done|].
    destruct (Nat.ltb _ _); simplify_eq; simpl; split; done.
  - destruct (updates_closed j); simplify_eq; simpl; split; done.
  - done.
Qed.

Lemma range_inv_jtrans j j' : jtrans j j' -> range_inv j -> range_inv j'.
Proof.
  unfold range_inv.
  destruct 1 as [j|j|j|j i pc j1 pc' lg Hi Hx|j u rest Hu]; simpl; try done.
  - intros H Hw. destruct (H Hw) as [HP Hex]. split; [done|].
    intros i ps Hi. apply lookup_app_Some in Hi as [Hi|(_ & Hi)]; [eauto|].
    destruct (i - length (execs j)) as [|[|]]; simpl in Hi; done.
  - destruct (exec_step_fields _ _ _ _ _ Hx) as (_ & _ & Hw1 & Hex1 & _).
    rewrite Hw1, Hex1. intros H Hw. destruct (H Hw) as [HP Hex].
    destruct (exec_step_range j pc j1 pc' lg Hx Hw HP) as [HP' Hpc'];
      [intros ps ->; eauto|].
    split; [done|]. intros k ps Hk.
    assert (i < length (execs j)) by (eapply lookup_lt_Some; eauto).
    destruct (decide (i = k)) as [->|Hne].
    + rewrite list_lookup_insert_eq in Hk by done. injection Hk as Hk. eauto.
    + rewrite list_lookup_insert_ne in Hk by done. eauto.
Qed.

(** C9 (amended): the code does not clamp or check the argument of
    [SetProgress]; [Progress] stays within 0..100 for a job whose work
    function only reports values within 0..100 (at every reachable point,
    however often the job is dispatched). *)
Theorem C9_progress_range (h : Hub) (l : nat) (j : Job) :
  reachable h -> heap h !! l = Some j -> Forall in_range (wprogress (work j)) ->
  (0 <= Progress j <= 100)%Z.
Proof.
  intros Hr Hl Hw.
  assert (range_inv j) as Hi.
  { clear Hw. revert l j Hl. eapply reachable_job_inv; [|exact range_inv_jtrans|exact Hr].
    intros id name w _. simpl. split; [unfold in_range; lia|].
    intros i ps Hi. by rewrite lookup_nil in Hi. }
  apply (Hi Hw).
Qed.

Lemma C9_witness :
  (reachable hub_A /\ heap hub_A !! 0 = Some job_A /\
   Forall in_range (wprogress (work job_A))) /\
  (0 <= Progress job_A <= 100)%Z.
Proof.
  assert (H : reachable hub_A /\ heap hub_A !! 0 = Some job_A /\
              Forall in_range (wprogress (work job_A))).
  { split; [exact hub_A_reachable|]. split; [vm_compute; reflexivity|].
    vm_compute. repeat constructor; discriminate. }
  split; [exact H|]. destruct H as (H1 & H2 & H3).
  exact (C9_progress_range hub_A 0 job_A H1 H2 H3).
Defined.

(** C9 (as stated, refuted): after the work function calls
    [SetProgress(150)], the stored progress is 150. *)
Lemma C9_progress_150 :
  reachable hub_over /\ heap hub_over !! 0 = Some job_over /\
  Progress job_over = 150%Z /\ ~ (0 <= Progress job_over <= 100)%Z.
Proof.
  split; [apply (run_reachable hub_init acts_over); [constructor|vm_compute; reflexivity]|].
  assert (E : Progress job_over = 150%Z) by (vm_compute; reflexivity).
  split; [vm_compute; reflexivity|]. split; [done|]. rewrite E. lia.
Qed.

(** ** C10 *)

Lemma count_exit_app xs ys : count_exit (xs ++ ys) = count_exit xs + count_exit ys.
Proof. induction xs; simpl; lia. Qed.

Lemma count_exit_insert (pcs : list ExecPC) i y x :
  pcs !! i = Some y -> count_exit (<[i := x]> pcs) + is_exit y = count_exit pcs + is_exit x.
Proof.
  revert i. induction pcs as [|pc pcs IH]; intros [|i] Hi; simpl in *; try done.
  - injection Hi as ->. lia.
  - specialize (IH i Hi). lia.
Qed.

Lemma count_exit_elem (pcs : list ExecPC) : EExit ∈ pcs -> 1 <= count_exit pcs.
Proof.
  induction pcs as [|pc pcs IH]; intros Hin; [by apply not_elem_of_nil in Hin|].
  apply elem_of_cons in Hin as [<-|Hin]; simpl; [lia|]. specialize (IH Hin). lia.
Qed.

Lemma count_exit_two (pcs : list ExecPC) i k :
  i <> k -> pcs !! i = Some EExit -> pcs !! k = Some EExit -> 2 <= count_exit pcs.
Proof.
  revert i k. induction pcs as [|pc pcs IH]; intros [|i] [|k] Hne Hi Hk; simpl in *;
    try done.
  - injection Hi as Hi. subst pc. simpl.
    pose proof (count_exit_elem pcs (list_elem_of_lookup_2 _ _ _ Hk)). lia.
  - injection Hk as Hk. subst pc. simpl.
    pose proof (count_exit_elem pcs (list_elem_of_lookup_2 _ _ _ Hi)). lia.
  - assert (i <> k) by congruence. specialize (IH i k ltac:(done) Hi Hk). lia.
Qed.

Lemma exec_step_exit j pc j' pc' lg :
  exec_step j pc = ENext j' pc' lg ->
  is_exit pc = 0 /\
  ((is_exit pc' = 0 /\ updates_closed j' = updates_closed j) \/
   (pc = EClose /\ pc' = EExit /\ updates_closed j = false /\ updates_closed j' = true)).
Proof.
  destruct pc as [| [|p ps] |err| |]; simpl;
    unfold SetProgress, chan_try_send, chan_send; simpl;
    repeat case_match; intros; simplify_eq; simpl; try tauto.
Qed.

Lemma exit_inv_jtrans j j' : jtrans j j' -> exit_inv j -> exit_inv j'.
Proof.
  unfold exit_inv.
  destruct 1 as [j|j|j|j i pc j1 pc' lg Hi Hx|j u rest Hu]; simpl; try done.
  - rewrite count_exit_app. simpl. lia.
  - destruct (exec_step_fields _ _ _ _ _ Hx) as (_ & _ & _ & Hex & _). rewrite Hex.
    pose proof (count_exit_insert _ _ _ pc' Hi) as Hc.
    destruct (exec_step_exit _ _ _ _ _ Hx) as [H0 [[H1 ->]|(-> & -> & Hcl & ->)]].
    + rewrite H0, H1 in Hc. lia.
    + rewrite Hcl in *. simpl in Hc. lia.
Qed.

(** C10 (amended): [Submit] has no guard against a second submission of
    the same job: with room in the queue it is enqueued twice, and the
    dispatch loop may start [execute] twice; the two goroutines can never
    both return (a second return would need the stream closed twice), so
    the process panics: when both push their terminal update before
    either closes, the stream carries two terminal updates and the second
    close panics; when the second starts after the first closed, its
    first send on the closed stream panics.  The single-terminal-update
    invariant is the one of single dispatch (C1). *)
Theorem C10_duplicate_submit (h : Hub) (l : nat) (j : Job) :
  crashed h = false -> heap h !! l = Some j -> length (submit h) + 2 <= submit_cap ->
  (exists h2, run h [ASubmit l; ASubmit l] = Some h2 /\ crashed h2 = false /\
     submit h2 = submit h ++ [l; l] /\ Get h2 (ID j) = Some l) /\
  (forall (h' : Hub) (l' : nat) (j' : Job) (i k : nat), reachable h' ->
     heap h' !! l' = Some j' -> execs j' !! i = Some EExit -> execs j' !! k = Some EExit ->
     i = k) /\
  (reachable hub_two /\ heap hub_two !! 0 = Some job_two /\
   execs job_two = [EExit; EClose] /\ count_done (stream job_two) = 2 /\
   exec_step job_two EClose = EPanic /\
   hub_step hub_two (AExec 0 1) = Some (set_crashed hub_two)) /\
  (reachable hub_seq /\ heap hub_seq !! 0 = Some job_seq /\
   execs job_seq = [EExit; ESend None] /\ updates_closed job_seq = true /\
   exec_step job_seq (ESend None) = EPanic /\
   hub_step hub_seq (AExec 0 1) = Some (set_crashed hub_seq)).
Proof.
  intros Hc Hl Hroom. split; [|split; [|split]].
  - assert (E1 : Nat.ltb (length (submit h)) submit_cap = true)
      by (apply Nat.ltb_lt; lia).
    assert (E2 : Nat.ltb (length (submit h ++ [l])) submit_cap = true)
      by (apply Nat.ltb_lt; rewrite length_app; simpl; lia).
    simpl. unfold hub_step at 1, Submit at 1, chan_try_send at 1.
    rewrite Hc, Hl. simpl. rewrite E1.
    unfold hub_step, Submit, chan_try_send. simpl. rewrite Hc, Hl. simpl. rewrite E2.
    eexists. split; [reflexivity|]. simpl. split; [done|]. split; [by rewrite <-app_assoc|].
    unfold Get. simpl. by rewrite lookup_insert_eq.
  - intros h' l' j' i k Hr Hl' Hi Hk.
    assert (exit_inv j') as He.
    { refine (reachable_job_inv exit_inv _ exit_inv_jtrans h' Hr l' j' Hl').
      intros. unfold exit_inv. reflexivity. }
    destruct (decide (i = k)) as [|Hne]; [done|].
    pose proof (count_exit_two _ _ _ Hne Hi Hk). unfold exit_inv in He.
    destruct (updates_closed j'); lia.
  - split; [apply (run_reachable hub_init acts_two); [constructor|vm_compute; reflexivity]|].
    vm_compute. repeat split; reflexivity.
  - split; [apply (run_reachable hub_init acts_seq); [constructor|vm_compute; reflexivity]|].
    vm_compute. repeat split; reflexivity.
Qed.

(** C10 (counterexample): a twice-submitted job whose second [execute]
    starts after the first one has closed the stream.  The stream holds a
    single terminal update, the second goroutine's terminal send panics
    (send on a closed channel), and the crashed process takes no further
    step: there is never a second terminal update nor a second close. *)
Lemma C10_send_on_closed :
  reachable hub_seq /\ heap hub_seq !! 0 = Some job_seq /\
  execs job_seq = [EExit; ESend None] /\ count_done (stream job_seq) = 1 /\
  updates_closed job_seq = true /\ exec_step job_seq (ESend None) = EPanic /\
  hub_step hub_seq (AExec 0 1) = Some (set_crashed hub_seq) /\
  (forall (acts : list Action) (h' : Hub),
     run (set_crashed hub_seq) acts = Some h' -> acts = [] /\ h' = set_crashed hub_seq).
Proof.
  split; [apply (run_reachable hub_init acts_seq); [constructor|vm_compute; reflexivity]|].
  split; [vm_compute; reflexivity|]. split; [vm_compute; reflexivity|].
  split; [vm_compute; reflexivity|]. split; [vm_compute; reflexivity|].
  split; [vm_compute; reflexivity|]. split; [vm_compute; reflexivity|].
  intros [|a acts] h' Hrun.
  - injection Hrun as Hrun. auto.
  - cbn [run] in Hrun. unfold hub_step in Hrun. cbn [crashed set_crashed] in Hrun.
    discriminate.
Qed.

Lemma C10_witness :
  (crashed hub_A = false /\ heap hub_A !! 0 = Some job_A /\
   length (submit hub_A) + 2 <= submit_cap) /\
  exists h2, run hub_A [ASubmit 0; ASubmit 0] = Some h2 /\ crashed h2 = false /\
     submit h2 = submit hub_A ++ [0; 0] /\ Get h2 (ID job_A) = Some 0.
Proof.
  assert (H : crashed hub_A = false /\ heap hub_A !! 0 = Some job_A /\
              length (submit hub_A) + 2 <= submit_cap).
  { split; [vm_compute; reflexivity|]. split; [vm_compute; reflexivity|].
    vm_compute. lia. }
  split; [exact H|]. destruct H as (H1 & H2 & H3).
  exact (proj1 (C10_duplicate_submit hub_A 0 job_A H1 H2 H3)).
Defined.

(** ** util.GenerateID *)

Lemma get_elem (s : string) k c :
  String.get k s = Some c -> c ∈ list_ascii_of_string s.
Proof.
  revert k. induction s as [|c' s IH]; intros [|k]; simpl; try done.
  - intros Hc. injection Hc as ->. apply list_elem_of_here.
  - intros Hk. apply list_elem_of_further. exact (IH k Hk).
Qed.

Lemma hex_char_elem n : hex_char n ∈ list_ascii_of_string hextable.
Proof.
  unfold hex_char. destruct (String.get _ hextable) eqn:E.
  - exact (get_elem _ _ _ E).
  - apply list_elem_of_here.
Qed.

Lemma EncodeToString_length b : String.length (EncodeToString b) = 2 * length b.
Proof. induction b as [|x b IH]; simpl; [done|]. rewrite IH. lia. Qed.

Lemma EncodeToString_chars b :
  Forall (fun c => c ∈ list_ascii_of_string hextable) (list_ascii_of_string (EncodeToString b)).
Proof.
  induction b as [|x b IH]; simpl; [constructor|].
  constructor; [apply hex_char_elem|]. constructor; [apply hex_char_elem|exact IH].
Qed.

Lemma decode_pair_byte b :
  decode_pair (hex_char (N.shiftr (Byte.to_N b) 4)) (hex_char (N.land (Byte.to_N b) 15)) = Some b.
Proof. destruct b; vm_compute; reflexivity. Qed.

Lemma decode_encode b : decode_hex (list_ascii_of_string (EncodeToString b)) = Some b.
Proof.
  induction b as [|x b IH]; simpl; [done|]. rewrite decode_pair_byte, IH. done.
Qed.

(** ** The counter *)

Lemma int64_wrap_succ z : int64_wrap (int64_wrap z + 1) = int64_wrap (z + 1).
Proof.
  unfold int64_wrap.
  replace ((z + 2 ^ 63) mod 2 ^ 64 - 2 ^ 63 + 1 + 2 ^ 63)%Z
    with ((z + 2 ^ 63) mod 2 ^ 64 + 1)%Z by ring.
  rewrite Z.add_mod_idemp_l by (vm_compute; congruence). f_equal. f_equal. ring.
Qed.

Lemma map_seq_shift {A} (f : nat -> A) s n :
  map f (seq (S s) n) = map (fun k => f (S k)) (seq s n).
Proof. rewrite <-seq_shift, map_map. done. Qed.

Lemma increments_wrap c n :
  increments (mkHandlers (int64_wrap c)) n =
  (mkHandlers (int64_wrap (c + Z.of_nat n)),
   map (fun k => PatchElements (CounterValue (int64_wrap (c + Z.of_nat k)))) (seq 1 n)).
Proof.
  revert c. induction n as [|n IH]; intros c; simpl.
  - rewrite Z.add_0_r. done.
  - unfold Increment. simpl. rewrite int64_wrap_succ, IH. simpl.
    rewrite (map_seq_shift _ 1 n).
    replace (c + Z.of_nat (S n))%Z with (c + 1 + Z.of_nat n)%Z by lia.
    replace (c + Z.of_nat 1)%Z with (c + 1)%Z by lia.
    f_equal. f_equal. apply map_ext. intros k.
    replace (c + Z.of_nat (S k))%Z with (c + 1 + Z.of_nat k)%Z by lia. done.
Qed.


(** ** JobStatus *)

Lemma stream_job_no_done id us :
  Forall (fun v => uDone v = false) us ->
  stream_job id us = map (fun v => PatchElements (JobProgress (uProgress v))) us.
Proof.
  induction 1 as [|v us Hv _ IH]; simpl; [done|]. rewrite Hv, IH. done.
Qed.

Lemma stream_job_app id pre u post :
  Forall (fun v => uDone v = false) pre -> uDone u = true ->
  stream_job id (pre ++ u :: post) =
  map (fun v => PatchElements (JobProgress (uProgress v))) (pre ++ [u]) ++
  done_events id (uError u).
Proof.
  intros Hpre Hu. induction Hpre as [|v pre Hv _ IH]; simpl.
  - rewrite Hu. done.
  - rewrite Hv, IH. done.
Qed.

Lemma count_done_zero us : count_done us = 0 -> Forall (fun v => uDone v = false) us.
Proof.
  induction us as [|u us IH]; simpl; [constructor|].
  destruct (uDone u) eqn:E; [lia|]. intros H. constructor; [done|]. apply IH. lia.
Qed.

(** ** The work function of StartJob *)

Lemma demo_task_loop_S fuel i t jctx rctx :
  demo_task_loop (S fuel) i t jctx rctx =
  if (i <=? 100)%Z then
    if jctx t then ([], ctx_canceled)
    else if jctx (S t) || rctx (S t) then ([i], ctx_canceled)
    else let '(ps, r) := demo_task_loop fuel (i + 10)%Z (S (S t)) jctx rctx in (i :: ps, r)
  else ([], None).
Proof. reflexivity. Qed.

Lemma demo_task_loop_spec jctx rctx n m :
  m + n = 11 ->
  let '(ps, r) := demo_task_loop (S n) (10 * Z.of_nat m)%Z (2 * m) jctx rctx in
  exists k, m + k <= 11 /\ ps = map (fun x => 10 * Z.of_nat x)%Z (seq m k) /\
    (r = None \/ r = ctx_canceled) /\
    (r = None -> m + k = 11) /\
    (r = None <-> forall t, 2 * m <= t < 22 -> checks_pass jctx rctx t).
Proof.
  revert m. induction n as [|n IH]; intros m Hm.
  - cbn [demo_task_loop]. destruct (Z.leb_spec (10 * Z.of_nat m) 100)%Z as [Hle|Hgt];
      [lia|].
    exists 0. simpl. repeat split; try lia; auto; intros; lia.
  - rewrite demo_task_loop_S. destruct (Z.leb_spec (10 * Z.of_nat m) 100)%Z as [Hle|Hgt];
      [|lia].
    destruct (jctx (2 * m)) eqn:Ej.
    { exists 0. simpl. repeat split; try lia; auto; try discriminate.
      intros Hall. destruct (Hall (2 * m) ltac:(lia)) as [Hj _]. congruence. }
    destruct (jctx (S (2 * m)) || rctx (S (2 * m))) eqn:Eo.
    { exists 1. simpl. repeat split; try lia; auto; try discriminate.
      intros Hall. destruct (Hall (S (2 * m)) ltac:(lia)) as [Hj Hr].
      rewrite Hj in Eo. rewrite Hr in Eo; [discriminate|].
      rewrite Nat.odd_succ, Nat.even_mul. done. }
    pose proof (IH (S m) ltac:(lia)) as IHm.
    replace (10 * Z.of_nat (S m))%Z with (10 * Z.of_nat m + 10)%Z in IHm by lia.
    replace (2 * S m) with (S (S (2 * m))) in IHm by lia.
    destruct (demo_task_loop (S n) _ _ jctx rctx) as [ps r]. cbv beta iota in IHm |- *.
    destruct IHm as (k & Hk & Hps & Hr & Hfull & Hiff).
    exists (S k). split; [lia|]. split; [rewrite Hps; done|].
    split; [done|]. split; [intros Hn; specialize (Hfull Hn); lia|].
    rewrite Hiff. apply orb_false_iff in Eo as [Eo1 Eo2]. split.
    + intros Hall t Ht.
      destruct (decide (t = 2 * m)) as [->|Hne1].
      { split; [done|]. rewrite Nat.odd_mul. simpl. discriminate. }
      destruct (decide (t = S (2 * m))) as [->|Hne2]; [split; done|].
      apply Hall. lia.
    + intros Hall t Ht. apply Hall. lia.
Qed.

Lemma demo_task_loop_exact jctx rctx n m :
  m + n = 11 ->
  (forall t0, 2 * m <= t0 < 22 -> (forall t, 2 * m <= t < t0 -> checks_pass jctx rctx t) ->
     ~ checks_pass jctx rctx t0 ->
     demo_task_loop (S n) (10 * Z.of_nat m)%Z (2 * m) jctx rctx =
       (map (fun x => 10 * Z.of_nat x)%Z (seq m (Nat.div2 (S t0) - m)), ctx_canceled)) /\
  ((forall t, 2 * m <= t < 22 -> checks_pass jctx rctx t) ->
     demo_task_loop (S n) (10 * Z.of_nat m)%Z (2 * m) jctx rctx =
       (map (fun x => 10 * Z.of_nat x)%Z (seq m (11 - m)), None)).
Proof.
  revert m. induction n as [|n IH]; intros m Hm.
  - cbn [demo_task_loop]. destruct (Z.leb_spec (10 * Z.of_nat m) 100)%Z as [Hle|Hgt];
      [lia|].
    split; [intros; lia|]. intros _. replace (11 - m) with 0 by lia. reflexivity.
  - rewrite demo_task_loop_S. destruct (Z.leb_spec (10 * Z.of_nat m) 100)%Z as [Hle|Hgt];
      [|lia].
    assert (Hev : checks_pass jctx rctx (2 * m) <-> jctx (2 * m) = false).
    { unfold checks_pass. rewrite Nat.odd_mul. simpl. split; [tauto|].
      intros Hj. split; [done|discriminate]. }
    assert (Hod : checks_pass jctx rctx (S (2 * m)) <->
                  (jctx (S (2 * m)) || rctx (S (2 * m))) = false).
    { unfold checks_pass. rewrite orb_false_iff, Nat.odd_succ, Nat.even_mul. simpl. tauto. }
    destruct (jctx (2 * m)) eqn:Ej.
    { split.
      - intros t0 Ht0 Hpre Hfail.
        destruct (decide (t0 = 2 * m)) as [->|Hne].
        + rewrite Nat.div2_succ_double, Nat.sub_diag. reflexivity.
        + exfalso. apply Hev in Hpre; [congruence|lia].
      - intros Hall. exfalso. apply Hev in Hall; [congruence|lia]. }
    destruct (jctx (S (2 * m)) || rctx (S (2 * m))) eqn:Eo.
    { split.
      - intros t0 Ht0 Hpre Hfail.
        destruct (decide (t0 = 2 * m)) as [->|Hne1]; [exfalso; apply Hfail; apply Hev; done|].
        destruct (decide (t0 = S (2 * m))) as [->|Hne2].
        + replace (Nat.div2 (S (S (2 * m))) - m) with 1
            by (cbn [Nat.div2]; rewrite Nat.div2_double; lia).
          reflexivity.
        + exfalso. apply Hod in Hpre; [congruence|lia].
      - intros Hall. exfalso. apply Hod in Hall; [congruence|lia]. }
    destruct (IH (S m) ltac:(lia)) as [IH1 IH2].
    replace (10 * Z.of_nat (S m))%Z with (10 * Z.of_nat m + 10)%Z in IH1, IH2 by lia.
    replace (2 * S m) with (S (S (2 * m))) in IH1, IH2 by lia.
    split.
    + intros t0 Ht0 Hpre Hfail.
      destruct (decide (t0 = 2 * m)) as [->|Hne1]; [exfalso; apply Hfail; apply Hev; done|].
      destruct (decide (t0 = S (2 * m))) as [->|Hne2]; [exfalso; apply Hfail; apply Hod; done|].
      rewrite (IH1 t0); [|lia|intros t Ht; apply Hpre; lia|done].
      cbv beta iota.
      pose proof (Nat.div2_odd (S t0)) as Hd.
      replace (Nat.div2 (S t0) - m) with (S (Nat.div2 (S t0) - S m))
        by (destruct (Nat.odd (S t0)); cbn [Nat.b2n] in Hd; lia).
      reflexivity.
    + intros Hall. rewrite IH2; [|intros t Ht; apply Hall; lia].
      cbv beta iota. replace (11 - m) with (S (11 - S m)) by lia. reflexivity.
Qed.

Lemma demo_task_range jctx rctx : Forall in_range (fst (demo_task jctx rctx)).
Proof.
  pose proof (demo_task_loop_spec jctx rctx 11 0 eq_refl) as Hs.
  unfold demo_task. destruct (demo_task_loop _ _ _ jctx rctx) as [ps r]. simpl.
  destruct Hs as (k & Hk & -> & _). apply Forall_forall. intros x Hx.
  apply list_elem_of_In, in_map_iff in Hx as (y & <- & Hy).
  apply in_seq in Hy. unfold in_range. lia.
Qed.

Lemma range_inv_reachable h l j : reachable h -> heap h !! l = Some j -> range_inv j.
Proof.
  intros Hr. revert l j. eapply reachable_job_inv; [|exact range_inv_jtrans|exact Hr].
  intros id name w _. simpl. split; [unfold in_range; lia|].
  intros i ps Hi. by rewrite lookup_nil in Hi.
Qed.


(** ** The dispatch loop after it returned *)

Lemma step_run_done h a h' :
  hub_step h a = Some h' ->
  (run_active h = false -> done_closed h = true) ->
  run_active h' = false -> done_closed h' = true.
Proof.
  unfold hub_step. destruct (crashed h); [done|].
  destruct a as [l0 id name w|l0| | | |l0 i|l0|l0]; intros Hs Hinv.
  - destruct (heap h !! l0); simplify_eq; exact Hinv.
  - apply Submit_fields in Hs as (j & _ & _ & _ & _ & Hd & Hra & _).
    rewrite Hd, Hra. exact Hinv.
  - destruct (run_active h) eqn:Ea; [|done]. destruct (submit h); [done|].
    destruct (heap h !! _); simplify_eq. simpl. rewrite Ea. discriminate.
  - destruct (run_active h && done_closed h) eqn:E; simplify_eq.
    apply andb_true_iff in E as [_ E]. simpl. done.
  - simplify_eq. unfold Stop. destruct (done_closed h) eqn:E; simpl; done.
  - destruct (heap h !! l0) as [j0|]; [|done]. destruct (execs j0 !! i); [|done].
    destruct (exec_step j0 _); simplify_eq; exact Hinv.
  - destruct (heap h !! l0) as [j0|]; [|done].
    destruct (chan_recv _ _); simplify_eq; exact Hinv.
  - destruct (heap h !! l0); simplify_eq; exact Hinv.
Qed.

Lemma reachable_run_done h : reachable h -> run_active h = false -> done_closed h = true.
Proof.
  induction 1 as [|h a h' Hr IH Hs]; [discriminate|]. exact (step_run_done _ _ _ Hs IH).
Qed.

Lemma step_no_dispatch h a h' :
  run_active h = false -> hub_step h a = Some h' ->
  run_active h' = false /\
  forall l, execs_count (heap h') l = execs_count (heap h) l.
Proof.
  unfold hub_step, execs_count. destruct (crashed h); [done|].
  destruct a as [l0 id name w|l0| | | |l0 i|l0|l0]; intros Ha Hs.
  - destruct (heap h !! l0) eqn:E; simplify_eq. simpl. split; [done|]. intros l.
    destruct (decide (l0 = l)) as [->|Hne].
    + rewrite lookup_insert_eq, E. done.
    + rewrite lookup_insert_ne by done. done.
  - apply Submit_fields in Hs as (j & _ & -> & _ & _ & _ & -> & _). done.
  - rewrite Ha in Hs. done.
  - rewrite Ha in Hs. done.
  - simplify_eq. unfold Stop. destruct (done_closed h); simpl; [done|].
    split; [done|]. intros l. rewrite cancel_all_lookup.
    case_decide; [|done]. destruct (heap h !! l); done.
  - destruct (heap h !! l0) as [j0|] eqn:E; [|done].
    destruct (execs j0 !! i) as [pc|]; [|done].
    destruct (exec_step j0 pc) as [j1 pc' lg| |] eqn:Ex; simplify_eq; simpl; [|done].
    split; [done|]. intros l. destruct (decide (l0 = l)) as [->|Hne].
    + rewrite lookup_insert_eq, E. simpl. rewrite length_insert.
      destruct (exec_step_fields _ _ _ _ _ Ex) as (_ & _ & _ & -> & _). done.
    + rewrite lookup_insert_ne by done. done.
  - destruct (heap h !! l0) as [j0|] eqn:E; [|done].
    destruct (chan_recv _ _); simplify_eq; simpl; [|done].
    split; [done|]. intros l. destruct (decide (l0 = l)) as [->|Hne].
    + rewrite lookup_insert_eq, E. done.
    + rewrite lookup_insert_ne by done. done.
  - destruct (heap h !! l0) as [j0|] eqn:E; simplify_eq. simpl. split; [done|].
    intros l. destruct (decide (l0 = l)) as [->|Hne].
    + rewrite lookup_insert_eq, E. done.
    + rewrite lookup_insert_ne by done. done.
Qed.

Lemma run_no_dispatch acts h h' :
  run_active h = false -> run h acts = Some h' ->
  run_active h' = false /\ forall l, execs_count (heap h') l = execs_count (heap h) l.
Proof.
  revert h. induction acts as [|a acts IH]; simpl; intros h Ha Hrun.
  - simplify_eq. done.
  - destruct (hub_step h a) as [hm|] eqn:E; [|done].
    destruct (step_no_dispatch _ _ _ Ha E) as [Hm Hc].
    destruct (IH _ Hm Hrun) as [H' Hc']. split; [done|]. intros l.
    rewrite Hc', Hc. done.
Qed.

(** ** The registry *)

Lemma registry_ok_step h a h' : hub_step h a = Some h' -> registry_ok h -> registry_ok h'.
Proof.
  intros Hs Hok id l Hl. pose proof (step_registry _ _ _ Hs) as Hreg.
  assert (Hold : jobs h !! id = Some l -> exists j, heap h' !! l = Some j /\ ID j = id).
  { intros Hl0. destruct (Hok _ _ Hl0) as (j0 & Hj0 & Hid).
    destruct (step_heap_persist _ _ _ _ _ Hs Hj0) as (j' & Hj' & Ht).
    destruct (jtrans_fields _ _ Ht) as (Hid' & _). exists j'. split; [done|]. congruence. }
  destruct a; try (rewrite Hreg in Hl; exact (Hold Hl)).
  destruct Hreg as (j & Hj & Hjobs). rewrite Hjobs in Hl.
  destruct (decide (ID j = id)) as [<-|Hne].
  - rewrite lookup_insert_eq in Hl. injection Hl as <-.
    destruct (step_heap_persist _ _ _ _ _ Hs Hj) as (j' & Hj' & Ht).
    destruct (jtrans_fields _ _ Ht) as (Hid' & _). exists j'. split; [done|]. congruence.
  - rewrite lookup_insert_ne in Hl by done. exact (Hold Hl).
Qed.

Lemma registry_ok_reachable h : reachable h -> registry_ok h.
Proof.
  induction 1 as [|h a h' Hr IH Hs].
  - intros id l Hl. simpl in Hl. by rewrite lookup_empty in Hl.
  - exact (registry_ok_step _ _ _ Hs IH).
Qed.


(** ** Further properties *)

(** X1: [GenerateID] returns 32 characters, all lowercase hexadecimal
    digits; in particular no double quote and no backslash, so the
    identifier needs no escaping in the JSON [StartJob] builds. *)
Theorem GenerateID_shape (b : list Byte.byte) :
  length b = 16 ->
  String.length (GenerateID b) = 32 /\
  Forall (fun c => c ∈ list_ascii_of_string hextable) (list_ascii_of_string (GenerateID b)) /\
  (Ascii.ascii_of_nat 34 ∉ list_ascii_of_string (GenerateID b)) /\
  (Ascii.ascii_of_nat 92 ∉ list_ascii_of_string (GenerateID b)).
Proof.
  intros Hb. unfold GenerateID.
  pose proof (EncodeToString_chars b) as Hc.
  assert (H34 : Ascii.ascii_of_nat 34 ∉ list_ascii_of_string hextable).
  { intros Hin. apply list_elem_of_In in Hin. vm_compute in Hin.
    repeat destruct Hin as [Hin|Hin]; try discriminate; done. }
  assert (H92 : Ascii.ascii_of_nat 92 ∉ list_ascii_of_string hextable).
  { intros Hin. apply list_elem_of_In in Hin. vm_compute in Hin.
    repeat destruct Hin as [Hin|Hin]; try discriminate; done. }
  rewrite Forall_forall in Hc.
  split; [rewrite EncodeToString_length, Hb; done|].
  split; [by apply Forall_forall|].
  split; intros Hin; [exact (H34 (Hc _ Hin))|exact (H92 (Hc _ Hin))].
Qed.

Lemma GenerateID_shape_witness :
  length (repeat Byte.x00 16) = 16 /\ String.length (GenerateID (repeat Byte.x00 16)) = 32.
Proof.
  split; [reflexivity|]. exact (proj1 (GenerateID_shape (repeat Byte.x00 16) eq_refl)).
Defined.

(** X2: different random bytes give different identifiers:
    [hex.EncodeToString] is injective. *)
Theorem GenerateID_injective (b1 b2 : list Byte.byte) :
  GenerateID b1 = GenerateID b2 -> b1 = b2.
Proof.
  unfold GenerateID. intros He.
  pose proof (decode_encode b1) as H1. pose proof (decode_encode b2) as H2.
  rewrite He in H1. congruence.
Qed.

Lemma GenerateID_injective_witness :
  GenerateID [Byte.x2a] = GenerateID [Byte.x2a] /\ [Byte.x2a] = [Byte.x2a].
Proof. split; [reflexivity|]. apply (GenerateID_injective [Byte.x2a] [Byte.x2a]). reflexivity. Defined.

(** X3: starting from [handlers.New], [n] [Increment] requests answer
    1, 2, ..., n in turn (each reduced to [int64]) and [Counter] then shows
    n; the values are exact up to 2^63 - 1, and the 2^63-th increment wraps
    the counter around to -2^63. *)
Theorem Counter_after_increments (n : nat) :
  let '(hs, evs) := increments New n in
  counter hs = int64_wrap (Z.of_nat n) /\
  evs = map (fun k => PatchElements (CounterValue (int64_wrap (Z.of_nat k)))) (seq 1 n) /\
  Counter hs = [PatchElements (CounterValue (int64_wrap (Z.of_nat n)))] /\
  (Z.of_nat n < 2 ^ 63 -> int64_wrap (Z.of_nat n) = Z.of_nat n)%Z /\
  (Z.of_nat n = 2 ^ 63 -> int64_wrap (Z.of_nat n) = - 2 ^ 63)%Z.
Proof.
  assert (E : New = mkHandlers (int64_wrap 0)) by reflexivity.
  rewrite E, increments_wrap. simpl.
  split; [done|]. split; [done|]. split; [done|]. split.
  - intros Hn. unfold int64_wrap. rewrite Z.mod_small; [lia|]. lia.
  - intros ->. vm_compute. reflexivity.
Qed.

(** X4: [JobStatus] answers 400 "job id required" for an empty id, and
    404 "job not found" for an id that no [Submit] of the run from
    [NewHub] carried; for a registered id it streams what it receives. *)
Theorem JobStatus_errors :
  (forall (h : Hub) (r : nat -> list JobUpdate),
     JobStatus h "" r = HttpError 400 "job id required") /\
  (forall (acts : list Action) (h : Hub) (id : string) (r : nat -> list JobUpdate),
     run hub_init acts = Some h -> id <> ""%string ->
     (forall l j, ASubmit l ∈ acts -> heap h !! l = Some j -> ID j <> id) ->
     JobStatus h id r = HttpError 404 "job not found") /\
  (forall (h : Hub) (id : string) (l : nat) (r : nat -> list JobUpdate),
     id <> ""%string -> Get h id = Some l ->
     JobStatus h id r = SseStream (stream_job id (r l))).
Proof.
  split; [done|]. split.
  - intros acts h id r Hrun Hne Hno. unfold JobStatus.
    destruct (String.eqb_spec id "") as [|_]; [done|].
    destruct (Get h id) as [l|] eqn:Eg; [|done]. exfalso.
    assert (is_Some (jobs h !! id)) as Hs by (unfold Get in Eg; rewrite Eg; eauto).
    apply (run_registry acts hub_init h id Hrun) in Hs as [Hs|(l' & j & Hin & Hl & Hid)].
    + simpl in Hs. rewrite lookup_empty in Hs. by destruct Hs.
    + exact (Hno l' j Hin Hl Hid).
  - intros h id l r Hne Hg. unfold JobStatus.
    destruct (String.eqb_spec id "") as [|_]; [done|]. rewrite Hg. done.
Qed.

(** X5: [JobStatus] sends one progress patch per update it receives; at
    the first [Done] update it also sends the final alert and status
    signal and stops reading, whatever follows. *)
Theorem stream_job_first_done (id : string) (pre post : list JobUpdate) (u : JobUpdate) :
  Forall (fun v => uDone v = false) pre -> uDone u = true ->
  stream_job id pre = map (fun v => PatchElements (JobProgress (uProgress v))) pre /\
  stream_job id (pre ++ u :: post) =
    map (fun v => PatchElements (JobProgress (uProgress v))) (pre ++ [u]) ++
    done_events id (uError u).
Proof.
  intros Hpre Hu. split; [exact (stream_job_no_done _ _ Hpre)|].
  exact (stream_job_app _ _ _ _ Hpre Hu).
Qed.

Lemma stream_job_first_done_witness :
  (Forall (fun v => uDone v = false) [mkJobUpdate 10 false None] /\
   uDone (mkJobUpdate 100 true None) = true) /\
  stream_job "x" ([mkJobUpdate 10 false None] ++ mkJobUpdate 100 true None ::
                  [mkJobUpdate 5 false None]) =
  map (fun v => PatchElements (JobProgress (uProgress v)))
      ([mkJobUpdate 10 false None] ++ [mkJobUpdate 100 true None]) ++
  done_events "x" None.
Proof.
  assert (H : Forall (fun v => uDone v = false) [mkJobUpdate 10 false None] /\
              uDone (mkJobUpdate 100 true None) = true)
    by (split; [repeat constructor|reflexivity]).
  split; [exact H|].
  exact (proj2 (stream_job_first_done "x" [mkJobUpdate 10 false None]
                  [mkJobUpdate 5 false None] (mkJobUpdate 100 true None)
                  (proj1 H) (proj2 H))).
Defined.

(** X6: for a job dispatched once whose [execute] has returned, a
    [JobStatus] request that reads the job's whole stream sends a progress
    patch per intermediate update, then one for the final progress, then
    the alert and status signal built from the job's own outcome: success
    with progress 100, or failure with the error [execute] recorded. *)
Theorem JobStatus_finished (h : Hub) (l : nat) (j : Job) :
  reachable h -> heap h !! l = Some j -> Get h (ID j) = Some l -> ID j <> ""%string ->
  execs j = [EExit] ->
  exists pre,
    stream j = pre ++ [mkJobUpdate (Progress j) true (Error j)] /\
    count_done pre = 0 /\
    JobStatus h (ID j) (whole_stream h) =
      SseStream (map (fun v => PatchElements (JobProgress (uProgress v))) pre ++
                 [PatchElements (JobProgress (Progress j))] ++ done_events (ID j) (Error j)) /\
    ((Status j = status_completed /\ Progress j = 100%Z /\ Error j = None) \/
     (Status j = status_failed /\ is_Some (Error j))).
Proof.
  intros Hr Hl Hg Hne Hex.
  destruct (fin_inv_reachable h l j Hr Hl) as [_ Hf].
  unfold fin_inv in Hf. rewrite Hex in Hf. destruct Hf as (pre & err & Hs & Hc & T).
  assert (Herr : err = Error j /\
                 ((Status j = status_completed /\ Progress j = 100%Z /\ Error j = None) \/
                  (Status j = status_failed /\ is_Some (Error j)))).
  { destruct err as [e|]; simpl in T.
    - destruct T as [HS HE]. split; [done|]. right. split; [done|]. rewrite HE. eauto.
    - destruct T as (HS & HP & HE). split; [done|]. left. done. }
  destruct Herr as [-> Hst].
  exists pre. split; [done|]. split; [done|]. split; [|done].
  unfold JobStatus. destruct (String.eqb_spec (ID j) "") as [|_]; [done|].
  rewrite Hg. unfold whole_stream. rewrite Hl, Hs.
  rewrite (stream_job_app _ pre (mkJobUpdate (Progress j) true (Error j)) []
             (count_done_zero _ Hc) eq_refl).
  rewrite map_app, <-app_assoc. done.
Qed.

Lemma JobStatus_finished_witness :
  (reachable hub_A /\ heap hub_A !! 0 = Some job_A /\ Get hub_A (ID job_A) = Some 0 /\
   ID job_A <> ""%string /\ execs job_A = [EExit]) /\
  exists pre, stream job_A = pre ++ [mkJobUpdate (Progress job_A) true (Error job_A)].
Proof.
  assert (H : reachable hub_A /\ heap hub_A !! 0 = Some job_A /\
              Get hub_A (ID job_A) = Some 0 /\ ID job_A <> ""%string /\
              execs job_A = [EExit]).
  { split; [exact hub_A_reachable|]. split; [vm_compute; reflexivity|].
    split; [vm_compute; reflexivity|]. split; [vm_compute; discriminate|].
    vm_compute; reflexivity. }
  split; [exact H|]. destruct H as (H1 & H2 & H3 & H4 & H5).
  destruct (JobStatus_finished hub_A 0 job_A H1 H2 H3 H4 H5) as (pre & Hs & _).
  exists pre. exact Hs.
Defined.

(** X7: the work function of [StartJob] reports 0, 10, 20, ... in order
    and returns "context canceled" as soon as one of its 22 context checks
    finds a done context (the job's context, or at the inner checks also
    the request's context): if the first check to fail is number [t0],
    it has reported [10 * m] for every [m < (t0 + 1) / 2] and nothing else.
    It returns nil, after reporting all of 0, 10, ..., 100, when every
    check passes. *)
Theorem demo_task_behaviour (jctx rctx : nat -> bool) :
  (snd (demo_task jctx rctx) = None \/ snd (demo_task jctx rctx) = ctx_canceled) /\
  (forall t0, t0 < 22 -> (forall t, t < t0 -> checks_pass jctx rctx t) ->
     ~ checks_pass jctx rctx t0 ->
     demo_task jctx rctx =
       (map (fun x => 10 * Z.of_nat x)%Z (seq 0 (Nat.div2 (S t0))), ctx_canceled)) /\
  ((forall t, t < 22 -> checks_pass jctx rctx t) ->
     demo_task jctx rctx = (map (fun x => 10 * Z.of_nat x)%Z (seq 0 11), None)).
Proof.
  destruct (demo_task_loop_exact jctx rctx 11 0 eq_refl) as [H1 H2].
  split; [|split].
  - pose proof (demo_task_loop_spec jctx rctx 11 0 eq_refl) as Hs.
    unfold demo_task. destruct (demo_task_loop _ _ _ jctx rctx) as [ps r].
    destruct Hs as (k & _ & _ & Hr & _). exact Hr.
  - intros t0 Ht0 Hpre Hfail. unfold demo_task.
    rewrite <- (Nat.sub_0_r (Nat.div2 (S t0))).
    apply (H1 t0); [lia| |done]. intros t Ht. apply Hpre. lia.
  - intros Hall. unfold demo_task. apply H2. intros t Ht. apply Hall. lia.
Qed.

Lemma demo_task_behaviour_witness :
  demo_task (fun t => Nat.eqb t 5) (fun _ => false) = ([0; 10; 20]%Z, ctx_canceled).
Proof.
  destruct (demo_task_behaviour (fun t => Nat.eqb t 5) (fun _ => false)) as (_ & H & _).
  assert (Hpre : forall t, t < 5 -> checks_pass (fun t => Nat.eqb t 5) (fun _ => false) t).
  { intros t Ht. unfold checks_pass.
    destruct t as [|[|[|[|[|t]]]]]; try lia; split; reflexivity. }
  assert (Hfail : ~ checks_pass (fun t => Nat.eqb t 5) (fun _ => false) 5).
  { intros [Hj _]. discriminate Hj. }
  rewrite (H 5 ltac:(lia) Hpre Hfail). reflexivity.
Defined.

(** X8: a job whose work is [StartJob]'s keeps its progress within
    0..100 in every reachable state, whatever the cancellations. *)
Theorem demo_task_progress_range (h : Hub) (l : nat) (j : Job) (jctx rctx : nat -> bool) :
  reachable h -> heap h !! l = Some j -> wprogress (work j) = fst (demo_task jctx rctx) ->
  (0 <= Progress j <= 100)%Z.
Proof.
  intros Hr Hl Hw. pose proof (range_inv_reachable h l j Hr Hl) as Hi.
  apply Hi. rewrite Hw. apply demo_task_range.
Qed.

Lemma demo_task_progress_range_witness :
  (reachable hub_A /\ heap hub_A !! 0 = Some job_A /\
   wprogress (work job_A) = fst (demo_task (fun _ => false) (fun _ => false))) /\
  (0 <= Progress job_A <= 100)%Z.
Proof.
  assert (H : reachable hub_A /\ heap hub_A !! 0 = Some job_A /\
              wprogress (work job_A) = fst (demo_task (fun _ => false) (fun _ => false))).
  { split; [exact hub_A_reachable|]. split; vm_compute; reflexivity. }
  split; [exact H|]. destruct H as (H1 & H2 & H3).
  exact (demo_task_progress_range hub_A 0 job_A _ _ H1 H2 H3).
Defined.

(** X9: [Run] returns only after [Stop] closed [done]; from then on no
    job is ever dispatched again: every job keeps its number of [execute]
    goroutines, and a job with none (created or submitted later included)
    stays pending forever. *)
Theorem after_run_returned (h : Hub) :
  reachable h -> run_active h = false ->
  done_closed h = true /\
  forall (acts : list Action) (h' : Hub), run h acts = Some h' ->
    run_active h' = false /\
    forall l j', heap h' !! l = Some j' ->
      length (execs j') = execs_count (heap h) l /\
      (execs j' = [] -> Status j' = status_pending).
Proof.
  intros Hr Ha. split; [exact (reachable_run_done h Hr Ha)|].
  intros acts h' Hrun.
  destruct (run_no_dispatch acts h h' Ha Hrun) as [Ha' Hc]. split; [done|].
  intros l j' Hl'. split.
  - rewrite <-Hc. unfold execs_count. rewrite Hl'. done.
  - intros He. pose proof (once_inv_reachable h' l j' (run_reachable _ _ _ Hr Hrun) Hl')
      as Ho. unfold once_inv in Ho. rewrite He in Ho. apply Ho.
Qed.

Lemma after_run_returned_witness :
  (reachable hub_stopped /\ run_active hub_stopped = false) /\ done_closed hub_stopped = true.
Proof.
  assert (H : reachable hub_stopped /\ run_active hub_stopped = false).
  { split; [|vm_compute; reflexivity].
    apply (run_reachable hub_A [AStop; ARunDone]); [exact hub_A_reachable|].
    vm_compute. reflexivity. }
  split; [exact H|]. exact (proj1 (after_run_returned hub_stopped (proj1 H) (proj2 H))).
Defined.

(** X10: [Get(id)] only ever returns a job whose [ID] is [id], and the
    hub never removes a job: once [Get(id)] succeeds it succeeds in every
    later state. *)
Theorem registry_consistent (h : Hub) :
  reachable h ->
  (forall id l, Get h id = Some l -> exists j, heap h !! l = Some j /\ ID j = id) /\
  (forall (acts : list Action) (h' : Hub) (id : string),
     run h acts = Some h' -> is_Some (Get h id) -> is_Some (Get h' id)).
Proof.
  intros Hr. split; [exact (registry_ok_reachable h Hr)|].
  intros acts h' id Hrun Hs. unfold Get in *.
  apply (run_registry acts h h' id Hrun). by left.
Qed.

Lemma registry_consistent_witness :
  reachable hub_A /\ (exists j, heap hub_A !! 0 = Some j /\ ID j = demo_id).
Proof.
  split; [exact hub_A_reachable|].
  apply (proj1 (registry_consistent hub_A hub_A_reachable)). vm_compute. reflexivity.
Defined.


End Jobs.
